(** * bb_run_bot: the Android build-bot dispatcher

    A shallow embedding of [trunk/build/android/buildbot/bb_run_bot.py]:
    the bot configuration table ([GetBotStepMap]), the command formatter
    ([GetCommands]) and the driver ([main]), followed by the properties
    the specification states about them.

    Modelling conventions.
    - Python lists are mutable objects.  Every list that a [BotConfig]
      or [TestConfig] refers to lives in a store ([heap]) and is named by
      its location, so that sharing between table entries and the effect
      of [copy.deepcopy] and [list.remove] are visible.
    - [bot_map] is a [gmap] from bot id to configuration; the order in
      which Python enumerates its keys is left open (a parameter
      [iterkeys] of the driver).
    - Exceptions are values of [exn]; code that may raise lives in the
      store-and-error monad [M].
    - Library functions whose text is not part of the script
      ([json.loads], [json.dumps], [pipes.quote], [subprocess.call],
      [bb_utils.CommandToString], [repr]) are parameters. *)

From stdpp Require Import base strings list gmap.

#[local] Set Warnings "-clear-no-such-hyp".

Local Open Scope string_scope.
Local Open Scope list_scope.

(** ** Strings *)

(** Python's [x in s] on two strings: [x] occurs in [s] as a contiguous
    block. *)
Fixpoint str_in (x s : string) : bool :=
  String.prefix x s ||
  match s with
  | EmptyString => false
  | String _ s' => str_in x s'
  end.

(** [sep.join(l)]. *)
Fixpoint join (sep : string) (l : list string) : string :=
  match l with
  | [] => ""
  | [x] => x
  | x :: l' => x +:+ sep +:+ join sep l'
  end.

(** The double-quote character (code 34), for the messages that quote an
    id. *)
Definition dq : string := String (Ascii.ascii_of_nat 34) EmptyString.

(** ** Exceptions and the store *)

Inductive exn : Type :=
| AssertionError
| KeyError (key : string)
| ValueError
| TypeError
| AttributeError.

Definition loc := nat.

(** The store: the list objects allocated so far, a location being an
    index. *)
Definition heap := list (list string).

Definition deref (h : heap) (r : loc) : list string := default [] (h !! r).

(** Computations that read and write the store and may raise. *)
Definition M (A : Type) : Type := heap → exn + (A * heap).

Definition raise {A} (e : exn) : M A := λ _, inl e.

#[export] Instance M_ret : MRet M := λ A a h, inr (a, h).

#[export] Instance M_bind : MBind M := λ A B k c h,
  match c h with
  | inl e => inl e
  | inr (a, h') => k a h'
  end.

(** A list display [[a, b, ...]] or a [+] of two lists builds a new
    object. *)
Definition new_list (l : list string) : M loc :=
  λ h, inr (List.length h, h ++ [l]).

Definition read_list (r : loc) : M (list string) :=
  λ h, inr (deref h r, h).

Definition write_list (r : loc) (l : list string) : M unit :=
  λ h, inr (tt, <[r := l]> h).

(** [a + b] on two list objects. *)
Definition list_add (a b : loc) : M loc :=
  la ← read_list a; lb ← read_list b; new_list (la ++ lb).

(** [l.remove(x)] for an [x] known to be in [l]: the first occurrence
    goes. *)
Fixpoint remove_first (x : string) (l : list string) : list string :=
  match l with
  | [] => []
  | y :: l' => if decide (y = x) then l' else y :: remove_first x l'
  end.

Definition list_remove (r : loc) (x : string) : M unit :=
  l ← read_list r; write_list r (remove_first x l).

Fixpoint sequenceM {A} (cs : list (M A)) : M (list A) :=
  match cs with
  | [] => mret []
  | c :: cs' => a ← c; as' ← sequenceM cs'; mret (a :: as')
  end.

(** ** Data model *)

(** A small Python [dict] from string to string, in enumeration order. *)
Definition props := list (string * string).

Fixpoint props_set (k v : string) (d : props) : props :=
  match d with
  | [] => [(k, v)]
  | (k', v') :: d' =>
      if decide (k' = k) then (k, v) :: d' else (k', v') :: props_set k v d'
  end.

(** [d.update(e)]. *)
Definition props_update (d e : props) : props :=
  foldl (λ acc kv, props_set kv.1 kv.2 acc) d e.

(** The named tuples.  [L] is what stands for a list: a location for the
    objects the program handles, the list itself for their value. *)
Record TestConfig (L : Type) : Type := T_
  { tests : L;
    extra_args : option L }.
Arguments T_ {L} _ _.
Arguments tests {L} _.
Arguments extra_args {L} _.

Record BotConfig (L : Type) : Type := B_
  { bot_id : string;
    host_opts : L;
    test_obj : option (TestConfig L);
    slave_props : option props }.
Arguments B_ {L} _ _ _ _.
Arguments bot_id {L} _.
Arguments host_opts {L} _.
Arguments test_obj {L} _.
Arguments slave_props {L} _.

Record Command : Type := mkCommand
  { step_name : option string;
    command : list string;
    testing_cmd : option (list string) }.

(** The value of a configuration in a store (what [==] and [repr] see). *)
Definition test_value (h : heap) (t : TestConfig loc) : TestConfig (list string) :=
  T_ (deref h (tests t)) (deref h <$> extra_args t).

Definition config_value (h : heap) (c : BotConfig loc) : BotConfig (list string) :=
  B_ (bot_id c) (deref h (host_opts c)) (test_value h <$> test_obj c)
     (slave_props c).

(** ** GetBotStepMap *)

(** [dict(pairs)]: a later pair replaces an earlier one with the same
    key. *)
Definition dict_of_pairs {V} (l : list (string * V)) : gmap string V :=
  foldl (λ m kv, <[kv.1 := kv.2]> m) ∅ l.

(** [copy.deepcopy] of a list of strings, with the memo that keeps one
    copy per original object. *)
Definition memo := list (loc * loc).

Fixpoint memo_get (m : memo) (r : loc) : option loc :=
  match m with
  | [] => None
  | (a, b) :: m' => if decide (a = r) then Some b else memo_get m' r
  end.

Definition deepcopy_list (m : memo) (r : loc) : M (loc * memo) :=
  match memo_get m r with
  | Some r' => mret (r', m)
  | None => l ← read_list r; r' ← new_list l; mret (r', (r, r') :: m)
  end.

Definition deepcopy_test (m : memo) (t : TestConfig loc)
  : M (TestConfig loc * memo) :=
  '(ts, m1) ← deepcopy_list m (tests t);
  match extra_args t with
  | None => mret (T_ ts None, m1)
  | Some ea => '(ea', m2) ← deepcopy_list m1 ea; mret (T_ ts (Some ea'), m2)
  end.

(** [copy.deepcopy(config)]: the fields are copied in order; strings are
    atomic and the property dict is never written, so both are kept. *)
Definition deepcopy (c : BotConfig loc) : M (BotConfig loc) :=
  '(ho, m1) ← deepcopy_list [] (host_opts c);
  match test_obj c with
  | None => mret (B_ (bot_id c) ho None (slave_props c))
  | Some t =>
      '(t', _) ← deepcopy_test m1 t;
      mret (B_ (bot_id c) ho (Some t') (slave_props c))
  end.

(** [config._replace(bot_id=to_id)]. *)
Definition replace_bot_id (c : BotConfig loc) (to_id : string) : BotConfig loc :=
  B_ to_id (host_opts c) (test_obj c) (slave_props c).

Definition flakiness_server : string := "--upload-to-flakiness-server".
Definition extra_gyp : string := "extra_gyp_defines".

(** One round of the loop over [copy_map]. *)
Definition copy_step (bot_map : gmap string (BotConfig loc))
    (to_id from_id : string) : M (gmap string (BotConfig loc)) :=
  match bot_map !! to_id with
  | Some _ => raise AssertionError
  | None =>
      match bot_map !! from_id with
      | None => raise (KeyError from_id)
      | Some src =>
          cp ← deepcopy src;
          let new := replace_bot_id cp to_id in
          let bot_map := <[to_id := new]> bot_map in
          match test_obj new with
          | Some test_obj =>
              if String.prefix "try" to_id then
                match extra_args test_obj with
                | Some extra_args =>
                    l ← read_list extra_args;
                    (if bool_decide (l ≠ []) && bool_decide (flakiness_server ∈ l)
                     then list_remove extra_args flakiness_server
                     else mret tt);;
                    mret bot_map
                | None => mret bot_map
                end
              else mret bot_map
          | None => mret bot_map
          end
      end
  end.

Fixpoint copy_loop (bot_map : gmap string (BotConfig loc))
    (copy_map : list (string * string)) : M (gmap string (BotConfig loc)) :=
  match copy_map with
  | [] => mret bot_map
  | (to_id, from_id) :: rest =>
      bot_map' ← copy_step bot_map to_id from_id; copy_loop bot_map' rest
  end.

(** The body of [GetBotStepMap] after its two tables are evaluated. *)
Definition build_bot_map (bot_configs : list (BotConfig loc))
    (copy_map : list (string * string)) : M (gmap string (BotConfig loc)) :=
  copy_loop (dict_of_pairs ((λ config, (bot_id config, config)) <$> bot_configs))
            copy_map.

Definition copy_map : list (string * string) :=
  [ ("lkgr-clobber", "main-clobber");
    ("try-builder-dbg", "main-builder-dbg");
    ("try-builder-rel", "main-builder-rel");
    ("try-clang-builder", "main-clang-builder");
    ("try-fyi-builder-dbg", "fyi-builder-dbg");
    ("try-tests", "main-tests");
    ("try-fyi-tests", "fyi-tests");
    ("webkit-latest-tests", "main-tests") ].

(** The list [bot_configs]; its entries are evaluated in order, each
    list display and each [+] allocating. *)
Definition bot_configs : M (list (BotConfig loc)) :=
  compile_opt ← new_list ["--compile"];
  std_host_tests ← new_list ["--host-tests=check_webview_licenses,findbugs"];
  std_build_opts ← new_list ["--compile"; "--zip-build"];
  std_test_opts ← new_list ["--extract-build"];
  std_tests ← new_list ["ui"; "unit"];
  let B bot_id bash_funs test_obj slave_props : BotConfig loc :=
    B_ bot_id bash_funs test_obj slave_props in
  let T tests extra_args : TestConfig loc := T_ tests extra_args in
  sequenceM
    [ (* Main builders *)
      (ho ← list_add std_build_opts std_host_tests;
       mret (B "main-builder-dbg" ho None None));
      mret (B "main-builder-rel" std_build_opts None None);
      mret (B "main-clang-builder" compile_opt None
             (Some [(extra_gyp, "clang=1")]));
      mret (B "main-clobber" compile_opt None None);
      (ea ← new_list [flakiness_server];
       mret (B "main-tests" std_test_opts (Some (T std_tests (Some ea))) None));
      (* Other waterfalls *)
      (l ← new_list ["--update-clang"];
       ho ← list_add compile_opt l;
       ea ← new_list ["--asan"];
       mret (B "asan-builder-tests" ho (Some (T std_tests (Some ea)))
              (Some [(extra_gyp, "asan=1")])));
      (ts ← new_list ["chromedriver"];
       ea ← new_list ["--install=ChromiumTestShell"];
       mret (B "chromedriver-fyi-tests-dbg" std_test_opts
              (Some (T ts (Some ea))) None));
      (ho1 ← list_add std_build_opts std_host_tests;
       l ← new_list ["--experimental"];
       ho ← list_add ho1 l;
       mret (B "fyi-builder-dbg" ho None None));
      (l ← new_list ["--experimental"];
       ho ← list_add std_build_opts l;
       mret (B "fyi-builder-rel" ho None None));
      (l ← new_list ["--experimental"];
       ho ← list_add compile_opt l;
       ea ← new_list ["--experimental"; flakiness_server];
       mret (B "fyi-tests-dbg-ics-gn" ho (Some (T std_tests (Some ea))) None));
      (ea ← new_list ["--experimental"; flakiness_server];
       mret (B "fyi-tests" std_test_opts (Some (T std_tests (Some ea))) None));
      (ea ← new_list ["--experimental"; flakiness_server];
       mret (B "fyi-component-builder-tests-dbg" compile_opt
              (Some (T std_tests (Some ea)))
              (Some [(extra_gyp, "component=shared_library")])));
      (ts ← new_list [];
       ea ← new_list ["--install=ContentShell"];
       mret (B "perf-tests-rel" std_test_opts (Some (T ts (Some ea))) None));
      (ts ← new_list ["webkit_layout"; "webkit"];
       mret (B "webkit-latest-webkit-tests" std_test_opts
              (Some (T ts None)) None));
      (ts ← new_list ["webkit_layout"];
       mret (B "webkit-latest-contentshell" compile_opt (Some (T ts None)) None));
      (ts ← new_list ["unit"];
       mret (B "builder-unit-tests" compile_opt (Some (T ts None)) None));
      (* Generic builder config (for substring match). *)
      mret (B "builder" std_build_opts None None) ].

Definition GetBotStepMap : M (gmap string (BotConfig loc)) :=
  bot_configs ← bot_configs;
  build_bot_map bot_configs copy_map.

(** The table and the store after the one call [main] makes. *)
Definition bot_table : gmap string (BotConfig loc) :=
  match GetBotStepMap [] with inr (m, _) => m | inl _ => ∅ end.

Definition bot_heap : heap :=
  match GetBotStepMap [] with inr (_, h) => h | inl _ => [] end.

(** The primary entries as declared, and the store at that point. *)
Definition declared_configs : list (BotConfig loc) :=
  match bot_configs [] with inr (l, _) => l | inl _ => [] end.

Definition declared_heap : heap :=
  match bot_configs [] with inr (_, h) => h | inl _ => [] end.

Definition declared_map : gmap string (BotConfig loc) :=
  dict_of_pairs ((λ config, (bot_id config, config)) <$> declared_configs).

(** The extra arguments of the test spec of a configuration, if it has
    both. *)
Definition extra_args_value (h : heap) (c : BotConfig loc)
  : option (list string) :=
  t ← test_obj c; ea ← extra_args t; Some (deref h ea).

(** The table and the store after a second call that follows the
    first. *)
Definition second_table : gmap string (BotConfig loc) :=
  match GetBotStepMap bot_heap with inr (m, _) => m | inl _ => ∅ end.

Definition second_heap : heap :=
  match GetBotStepMap bot_heap with inr (_, h) => h | inl _ => [] end.

#[export] Instance TestConfig_eq_dec {L} `{EqDecision L} :
  EqDecision (TestConfig L).
Proof. solve_decision. Defined.

#[export] Instance BotConfig_eq_dec {L} `{EqDecision L} :
  EqDecision (BotConfig L).
Proof. solve_decision. Defined.

(** What the alias loop owes to one entry of [copy_map], as a test. *)
Definition try_alias_check (entry : string * string) : bool :=
  let '(to_id, from_id) := entry in
  if String.prefix "try" to_id then
    match declared_map !! from_id ≫= extra_args_value declared_heap with
    | Some l =>
        if bool_decide (flakiness_server ∈ l) then
          match bot_table !! to_id ≫= extra_args_value bot_heap,
                bot_table !! from_id ≫= extra_args_value bot_heap with
          | Some l', Some l'' =>
              bool_decide (flakiness_server ∉ l') &&
              bool_decide (flakiness_server ∈ l'')
          | _, _ => false
          end
        else true
    | None => true
    end
  else true.

(** ** The driver and the command formatter *)

Definition GLOBAL_SLAVE_PROPS : props := [].

(** [max(l, key=len)] on a non-empty list [x :: l]: the first element of
    greatest length. *)
Fixpoint max_by_len (x : string) (l : list string) : string :=
  match l with
  | [] => x
  | y :: l' =>
      if (String.length x <? String.length y)%nat
      then max_by_len y l' else max_by_len x l'
  end.

(** What the script writes and runs, in order; a [Call] carries the exit
    code the child returned. *)
Inductive event : Type :=
| Print (line : string)
| PrintNamedStep (name : string)
| Flush
| Call (argv : list string) (cwd : string) (testing_env : bool)
       (return_code : Z).

(** The command line as [optparse] recognises it, one item per option
    occurrence or positional argument. *)
Inductive cli_arg : Type :=
| Opt_build_properties (value : string)
| Opt_factory_properties (value : string)
| Opt_bot_id (value : string)
| Opt_TESTING
| Opt_help
| Opt_bad (msg : string)
| Positional (arg : string).

Inductive usage_error : Type :=
| BadOption (msg : string)
| UnusedArgs (args : list string)
| NoBotId.

(** How a run of the script ends.  What [optparse] itself writes, the
    usage message of an error and the help text, goes with the outcome
    and is no event. *)
Inductive outcome : Type :=
| Returned (code : option Z)
| ParserError (why : usage_error)
| HelpExit
| Uncaught (e : exn).

#[local] Set Warnings "-register-all".

(** Decoded JSON, over the numbers of the platform. *)
Inductive json (number : Type) : Type :=
| JNull
| JBool (b : bool)
| JNum (n : number)
| JStr (s : string)
| JList (l : list (json number))
| JDict (d : list (string * json number)).
Arguments JNull {number}.
Arguments JBool {number} _.
Arguments JNum {number} _.
Arguments JStr {number} _.
Arguments JList {number} _.
Arguments JDict {number} _.

(** The Python runtime and the libraries the script calls. *)
Class Platform : Type :=
  { number : Type;
    (** truth value of a number *)
    number_truth : number → bool;
    (** [json.loads], [None] when it raises [ValueError] *)
    json_loads : string → option (json number);
    json_dumps : json number → string;
    (** [str(v)], as in ['%s' % v] *)
    str_json : json number → string;
    pipes_quote : string → string;
    CommandToString : list string → string;
    repr_BotConfig : BotConfig (list string) → string;
    CHROME_SRC : string;
    (** [subprocess.call(argv, cwd=..., env=...)] in a world it may
        change; the flag tells which [env] the script passes: [false]
        for [None], the environment of the script as it is, [true] for
        that environment with [BUILDBOT_TESTING='1'] put in *)
    World : Type;
    subprocess_call : list string → string → bool → World → Z * World;
    (** the enumeration order of [bot_map.iterkeys()] *)
    iterkeys : gmap string (BotConfig loc) → list string }.

Section Driver.

Context {P : Platform}.

#[local] Abbreviation json := (json number).

Record Options : Type := mkOptions
  { build_properties : json;
    factory_properties : json;
    opt_bot_id : option string;
    TESTING : bool }.

Definition props_json (d : props) : json :=
  JDict ((λ kv, (kv.1, JStr kv.2)) <$> d).

Definition WrapWithBash (slave_properties command : string) : list string :=
  [ "bash"; "-exc";
    join "; "
      [ ". build/android/buildbot/buildbot_functions.sh";
        "bb_baseline_setup " +:+ CHROME_SRC +:+ " --slave-properties=" +:+
          pipes_quote slave_properties;
        command ] ].

Definition property_args (options : Options) (slave_properties : string)
  : list string :=
  [ "--factory-properties=" +:+ json_dumps (factory_properties options);
    "--build-properties=" +:+ json_dumps (build_properties options);
    "--slave-properties=" +:+ slave_properties ].

(** The first three statements of [GetCommands]: a copy of the global
    properties, updated with those of the bot when it has any. *)
Definition merged_slave_props (bot_config : BotConfig loc) : props :=
  match slave_props bot_config with
  | Some (kv :: d) => props_update GLOBAL_SLAVE_PROPS (kv :: d)
  | _ => GLOBAL_SLAVE_PROPS
  end.

Definition GetCommands (options : Options) (h : heap)
    (bot_config : BotConfig loc) : list Command :=
  let slave_props := merged_slave_props bot_config in
  let slave_properties := json_dumps (props_json slave_props) in
  let property_args := property_args options slave_properties in
  let commands := [] in
  let commands :=
    match deref h (host_opts bot_config) with
    | [] => commands
    | host_opts =>
        let host_cmd :=
          ["build/android/buildbot/bb_host_steps.py"] ++ host_opts ++
          property_args in
        commands ++
        [ mkCommand (Some "Host steps")
            (WrapWithBash slave_properties (join " " (pipes_quote <$> host_cmd)))
            (Some host_cmd) ]
    end in
  match test_obj bot_config with
  | Some test_obj =>
      let run_test_cmd :=
        ["build/android/buildbot/bb_device_steps.py"; "--reboot"] ++
        property_args in
      let run_test_cmd :=
        foldl (λ cmd test, cmd ++ ["-f"; test]) run_test_cmd
              (deref h (tests test_obj)) in
      let run_test_cmd :=
        match deref h <$> extra_args test_obj with
        | Some (a :: l) => run_test_cmd ++ a :: l
        | _ => run_test_cmd
        end in
      commands ++
      [ mkCommand (Some "Run tests")
          (WrapWithBash slave_properties (join " " (pipes_quote <$> run_test_cmd)))
          (Some run_test_cmd) ]
  | None => commands
  end.

(** ** Option parsing *)

Definition default_options : Options := mkOptions (JDict []) (JDict []) None false.

(** [parser.parse_args]: the options act from left to right.  A value
    [json.loads] rejects makes the callback raise [ValueError], which
    [optparse] does not catch; an option it cannot process makes it call
    [parser.error]. *)
Fixpoint parse_args (argv : list cli_arg) (values : Options)
    (largs : list string) : outcome + (Options * list string) :=
  match argv with
  | [] => inr (values, largs)
  | Opt_build_properties value :: rest =>
      match json_loads value with
      | None => inl (Uncaught ValueError)
      | Some v =>
          parse_args rest
            (mkOptions v (factory_properties values) (opt_bot_id values)
               (TESTING values)) largs
      end
  | Opt_factory_properties value :: rest =>
      match json_loads value with
      | None => inl (Uncaught ValueError)
      | Some v =>
          parse_args rest
            (mkOptions (build_properties values) v (opt_bot_id values)
               (TESTING values)) largs
      end
  | Opt_bot_id value :: rest =>
      parse_args rest
        (mkOptions (build_properties values) (factory_properties values)
           (Some value) (TESTING values)) largs
  | Opt_TESTING :: rest =>
      parse_args rest
        (mkOptions (build_properties values) (factory_properties values)
           (opt_bot_id values) true) largs
  | Opt_help :: _ => inl HelpExit
  | Opt_bad msg :: _ => inl (ParserError (BadOption msg))
  | Positional arg :: rest => parse_args rest values (largs ++ [arg])
  end.

(** ** Bot resolution *)

(** Python truth of a JSON value. *)
Definition truthy (v : json) : bool :=
  match v with
  | JNull => false
  | JBool b => b
  | JNum n => number_truth n
  | JStr s => negb (String.eqb s "")
  | JList l => match l with [] => false | _ => true end
  | JDict d => match d with [] => false | _ => true end
  end.

Fixpoint dict_get (d : list (string * json)) (k : string) : option json :=
  match d with
  | [] => None
  | (k', v) :: d' => if decide (k' = k) then Some v else dict_get d' k
  end.

(** [options.bot_id or options.factory_properties.get('android_bot_id')]:
    the value ([JNull] for [None]), or the exception of a [.get] on
    something that is no dict. *)
Definition select_bot_id (options : Options) : exn + json :=
  match opt_bot_id options with
  | Some (String a s) => inr (JStr (String a s))
  | _ =>
      match factory_properties options with
      | JDict d => inr (default JNull (dict_get d "android_bot_id"))
      | _ => inl AttributeError
      end
  end.

(** The lookup of [main]: exact match first, then the longest key that
    occurs in [bot_id].  [None] stands for a [bot_config] left at
    [None]. *)
Definition resolve (bot_map : gmap string (BotConfig loc)) (bot_id : string)
  : list event * (exn + option (BotConfig loc)) :=
  match bot_map !! bot_id with
  | Some bot_config => ([], inr (Some bot_config))
  | None =>
      match filter (λ x, str_in x bot_id = true) (iterkeys bot_map) with
      | [] => ([], inr None)
      | x :: l =>
          let max_id := max_by_len x l in
          let out :=
            [Print ("Using config from id=" +:+ dq +:+ max_id +:+ dq +:+
                    " (substring match).")] in
          match bot_map !! max_id with
          | Some bot_config => (out, inr (Some bot_config))
          | None => (out, inl (KeyError max_id))
          end
      end
  end.

(** ** Running the commands *)

(** The second loop of [main]; the result is the value [main] returns. *)
Fixpoint run_commands (testing : bool) (command_objs : list Command)
    (w : World) : list event * option Z * World :=
  match command_objs with
  | [] => ([], None, w)
  | command_obj :: rest =>
      let named :=
        match step_name command_obj with
        | Some (String a s) => [PrintNamedStep (String a s)]
        | _ => []
        end in
      let out := named ++ [Print (CommandToString (command command_obj)); Flush] in
      let go argv env :=
        let '(return_code, w1) := subprocess_call argv CHROME_SRC env w in
        let out := out ++ [Call argv CHROME_SRC env return_code] in
        if decide (return_code ≠ 0%Z)
        then (out, Some return_code, w1)
        else
          let '(evs, r, w2) := run_commands testing rest w1 in
          (out ++ evs, r, w2) in
      if testing then
        match testing_cmd command_obj with
        | Some (a :: l) => go (a :: l) true
        | _ =>
            let '(evs, r, w2) := run_commands testing rest w in
            (out ++ evs, r, w2)
        end
      else go (command command_obj) false
  end.

(** ** main *)

Definition main (argv : list cli_arg) (w : World) : list event * outcome * World :=
  match parse_args argv default_options [] with
  | inl stop => ([], stop, w)
  | inr (options, (_ :: _) as args) => ([], ParserError (UnusedArgs args), w)
  | inr (options, []) =>
      match select_bot_id options with
      | inl e => ([], Uncaught e, w)
      | inr v =>
          if negb (truthy v) then ([], ParserError NoBotId, w) else
          match GetBotStepMap [] with
          | inl e => ([], Uncaught e, w)
          | inr (bot_map, h) =>
              let found :=
                match v with
                | JStr bot_id => resolve bot_map bot_id
                | JList _ | JDict _ =>
                    (* unhashable: [bot_map.get] raises *)
                    ([], inl TypeError)
                | _ =>
                    (* no key equals it, and the first [x in bot_id]
                       raises *)
                    match iterkeys bot_map with
                    | [] => ([], inr None)
                    | _ => ([], inl TypeError)
                    end
                end in
              match found with
              | (out, inl e) => (out, Uncaught e, w)
              | (out, inr None) =>
                  let bot_id := match v with JStr s => s | _ => str_json v end in
                  (out ++ [Print ("Error: config for id=" +:+ dq +:+ bot_id +:+
                                  dq +:+ " cannot be inferred.")],
                   Returned (Some 1%Z), w)
              | (out, inr (Some bot_config)) =>
                  let out :=
                    out ++ [Print ("Using config: " +:+
                                   repr_BotConfig (config_value h bot_config))] in
                  let command_objs := GetCommands options h bot_config in
                  let out :=
                    out ++
                    ((λ command_obj,
                        Print ("Will run: " +:+
                               CommandToString (command command_obj)))
                       <$> command_objs) in
                  let '(evs, r, w') :=
                    run_commands (TESTING options) command_objs w in
                  (out ++ evs, Returned r, w')
              end
          end
      end
  end.

End Driver.

(** * The vocabulary of the properties *)

(** [x] occurs literally in [s]. *)
Definition occurs_in (x s : string) : Prop :=
  ∃ pre post, s = pre +:+ x +:+ post.

(** [c] runs to the end from every store, with a result in [Q]. *)
Definition returns {A} (c : M A) (Q : A → Prop) : Prop :=
  ∀ h, ∃ a h', c h = inr (a, h') ∧ Q a.

(** The ids are those of configurations that carry them. *)
Definition keyed_by_bot_id (m : gmap string (BotConfig loc)) : Prop :=
  ∀ k c, m !! k = Some c → bot_id c = k.

(** Every alias is new when its turn comes and copies an id defined by
    then. *)
Fixpoint aliases_ok (defined : gset string) (copy_map : list (string * string))
  : Prop :=
  match copy_map with
  | [] => True
  | (to_id, from_id) :: rest =>
      (to_id ∉ defined) ∧ (from_id ∈ defined) ∧
      aliases_ok ({[to_id]} ∪ defined) rest
  end.

Section Vocabulary.

Context {P : Platform}.

(** [iterkeys] enumerates the keys of the map, whatever the order. *)
Definition iterkeys_enumerates : Prop :=
  ∀ (m : gmap string (BotConfig loc)) k, k ∈ iterkeys m ↔ is_Some (m !! k).


(** What the loop would start if no child failed. *)
Definition invoked (testing : bool) (command_objs : list Command)
  : list (list string) :=
  omap (λ c, if testing
             then match testing_cmd c with
                  | Some (a :: l) => Some (a :: l)
                  | _ => None
                  end
             else Some (command c)) command_objs.

(** A trace made of whole rounds: marker, command line, flush, child. *)
Inductive stepped : list event → Prop :=
| stepped_nil : stepped []
| stepped_round name line argv cwd env return_code evs :
    stepped evs →
    stepped (PrintNamedStep name :: Print line :: Flush ::
             Call argv cwd env return_code :: evs).

(** What one round writes before it starts the child. *)
Definition round_head (c : Command) : list event :=
  match step_name c with
  | Some (String a s) => [PrintNamedStep (String a s)]
  | _ => []
  end ++ [Print (CommandToString (command c)); Flush].

(** One round of [run_commands] that starts [argv]. *)
Definition round_go (testing : bool) (c : Command) (rest : list Command)
    (argv : list string) (env : bool) (w : World)
  : list event * option Z * World :=
  let '(return_code, w1) := subprocess_call argv CHROME_SRC env w in
  let out := round_head c ++ [Call argv CHROME_SRC env return_code] in
  if decide (return_code ≠ 0%Z) then (out, Some return_code, w1)
  else let '(evs, r, w2) := run_commands testing rest w1 in (out ++ evs, r, w2).


(** A command with one of the two step names and a non-empty testing
    form. *)
Definition named_and_testable (c : Command) : Prop :=
  (step_name c = Some "Host steps" ∨ step_name c = Some "Run tests") ∧
  ∃ a l, testing_cmd c = Some (a :: l).

(** The value of the last [--bot-id] on the command line, if any. *)
Fixpoint last_bot_id (argv : list cli_arg) (seen : option string)
  : option string :=
  match argv with
  | [] => seen
  | Opt_bot_id value :: rest => last_bot_id rest (Some value)
  | _ :: rest => last_bot_id rest seen
  end.

End Vocabulary.

(** ** More vocabulary *)

(** The positional arguments of a command line, in order. *)
Definition positionals (argv : list cli_arg) : list string :=
  omap (λ a, match a with Positional arg => Some arg | _ => None end) argv.

(** The value of the last item of a command line that [sel] picks. *)
Fixpoint last_value (sel : cli_arg → option string) (argv : list cli_arg)
  : option string :=
  match argv with
  | [] => None
  | a :: rest =>
      match last_value sel rest with
      | Some v => Some v
      | None => sel a
      end
  end.

(** The value of a [--build-properties] item, of a [--factory-properties]
    item. *)
Definition build_value (a : cli_arg) : option string :=
  match a with Opt_build_properties value => Some value | _ => None end.

Definition factory_value (a : cli_arg) : option string :=
  match a with Opt_factory_properties value => Some value | _ => None end.

(** The line [main] prints when it falls back on a key. *)
Definition substring_match_line (max_id : string) : event :=
  Print ("Using config from id=" +:+ dq +:+ max_id +:+ dq +:+
         " (substring match).").

(** [d.get(k)]. *)
Fixpoint props_get (d : props) (k : string) : option string :=
  match d with
  | [] => None
  | (k', v) :: d' => if decide (k' = k) then Some v else props_get d' k
  end.

(** The list objects a configuration refers to. *)
Definition test_locs (t : TestConfig loc) : list loc :=
  tests t :: match extra_args t with Some ea => [ea] | None => [] end.

Definition locs_of (c : BotConfig loc) : list loc :=
  host_opts c :: match test_obj c with Some t => test_locs t | None => [] end.

(** They all exist in the store. *)
Definition config_valid (h : heap) (c : BotConfig loc) : Prop :=
  Forall (λ r, r < length h) (locs_of c).

(** The configuration [deepcopy] returns for one whose lists are
    different objects: its lists are the next cells of the store. *)
Definition relocate (n : loc) (c : BotConfig loc) : BotConfig loc :=
  B_ (bot_id c) n
     ((λ t, T_ (n + 1) ((λ _, n + 2) <$> extra_args t)) <$> test_obj c)
     (slave_props c).

(** The value of an alias, from the value of its source: the new id and,
    for a try bot, the extra arguments less the first dashboard flag. *)
Definition alias_value (to_id : string) (v : BotConfig (list string))
  : BotConfig (list string) :=
  B_ to_id (host_opts v)
     ((λ t, T_ (tests t)
              ((λ ea, if String.prefix "try" to_id
                      then remove_first flakiness_server ea else ea)
                 <$> extra_args t))
        <$> test_obj v)
     (slave_props v).

(** Every configuration of the table has its lists in the store, each a
    different object. *)
Definition table_ok (h : heap) (m : gmap string (BotConfig loc)) : Prop :=
  ∀ k c, m !! k = Some c → config_valid h c ∧ NoDup (locs_of c).

Section MoreVocabulary.

Context {P : Platform}.

(** An item that [parse_args] goes past. *)
Definition accepted (a : cli_arg) : Prop :=
  match a with
  | Opt_build_properties value | Opt_factory_properties value =>
      is_Some (json_loads value)
  | Opt_help | Opt_bad _ => False
  | _ => True
  end.

(** A child started in the directory, with the [env] argument and with
    an argv that the mode and the commands call for. *)
Definition call_as_planned (testing : bool) (command_objs : list Command)
    (e : event) : Prop :=
  match e with
  | Call argv cwd env _ =>
      cwd = CHROME_SRC ∧ env = testing ∧
      ∃ c, c ∈ command_objs ∧
           if testing then testing_cmd c = Some argv else command c = argv
  | _ => True
  end.

(** The round of a command that has a step name: the marker with that
    name, the command line, the flush, and the child of the mode with
    the exit code it returned. *)
Definition round_of (testing : bool) (c : Command) (return_code : Z)
  : list event :=
  [ PrintNamedStep (default "" (step_name c));
    Print (CommandToString (command c));
    Flush;
    Call (if testing then default [] (testing_cmd c) else command c)
         CHROME_SRC testing return_code ].

(** The trace is one round for each command of a prefix of
    [command_objs], in order.  When the loop returns nothing the prefix
    is the whole list and every child returned zero; when it returns a
    code, that code is not zero, it is the code of the last round, and
    the children before returned zero. *)
Definition rounds_of_run (testing : bool) (command_objs : list Command)
    (res : list event * option Z * World) : Prop :=
  ∃ codes : list Z,
    res.1.1 = concat (zip_with (round_of testing) command_objs codes) ∧
    (List.length codes ≤ List.length command_objs)%nat ∧
    match res.1.2 with
    | None =>
        List.length codes = List.length command_objs ∧
        Forall (λ rc, rc = 0%Z) codes
    | Some code =>
        code ≠ 0%Z ∧
        ∃ zeros, codes = zeros ++ [code] ∧ Forall (λ rc, rc = 0%Z) zeros
    end.

(** The trace begins with the round of the first command, run in the
    world the loop was given. *)
Definition first_round_of_run (testing : bool) (command_objs : list Command)
    (w : World) (res : list event * option Z * World) : Prop :=
  match command_objs with
  | [] => res = ([], None, w)
  | c :: _ =>
      let argv := if testing then default [] (testing_cmd c) else command c in
      ∃ evs, res.1.1 =
             round_of testing c (subprocess_call argv CHROME_SRC testing w).1
             ++ evs
  end.

End MoreVocabulary.

(** * A sample platform *)

(** The text of a factory-properties object that names a bot. *)
Definition factory_text : string :=
  "{" +:+ dq +:+ "android_bot_id" +:+ dq +:+ ": " +:+
  dq +:+ "main-tests" +:+ dq +:+ "}".

(** A decoder that knows two texts and rejects the others. *)
Definition sample_json_loads (s : string) : option (json Z) :=
  if decide (s = "{}") then Some (JDict [])
  else if decide (s = factory_text)
       then Some (JDict [("android_bot_id", JStr "main-tests")])
       else None.

(** A world that is the list of the exit codes still to come. *)
Definition scripted_call (argv : list string) (cwd : string) (env : bool)
    (w : list Z) : Z * list Z :=
  match w with
  | [] => (0%Z, [])
  | return_code :: w' => (return_code, w')
  end.

(** Integers for numbers, the identity for quoting, placeholders for the
    texts the properties do not read, and the enumeration of the map. *)
#[export] Instance sample_platform : Platform :=
  {| number := Z;
     number_truth := λ n, bool_decide (n ≠ 0%Z);
     json_loads := sample_json_loads;
     json_dumps := λ _, "{}";
     str_json := λ _, "";
     pipes_quote := λ s, s;
     CommandToString := join " ";
     repr_BotConfig := bot_id;
     CHROME_SRC := "/b/build/src";
     World := list Z;
     subprocess_call := scripted_call;
     iterkeys := λ m, (map_to_list m).*1 |}.

(** The text of factory properties whose bot id is a number. *)
Definition numeric_factory_text : string :=
  "{" +:+ dq +:+ "android_bot_id" +:+ dq +:+ ": 5}".

(** A decoder that also knows an array and that text. *)
Definition wide_json_loads (s : string) : option (json Z) :=
  if decide (s = "[]") then Some (JList [])
  else if decide (s = numeric_factory_text)
       then Some (JDict [("android_bot_id", JNum 5%Z)])
       else sample_json_loads s.

(** The sample platform with that decoder. *)
Definition wide_platform : Platform :=
  {| number := Z;
     number_truth := λ n, bool_decide (n ≠ 0%Z);
     json_loads := wide_json_loads;
     json_dumps := λ _, "{}";
     str_json := λ _, "";
     pipes_quote := λ s, s;
     CommandToString := join " ";
     repr_BotConfig := bot_id;
     CHROME_SRC := "/b/build/src";
     World := list Z;
     subprocess_call := scripted_call;
     iterkeys := λ m, (map_to_list m).*1 |}.

(** Two small tables: one with a key inside another, one with two keys
    of one length. *)
Definition nested_map : gmap string (BotConfig loc) :=
  <["fyi-builder" := B_ "fyi-builder" 1 None None]>
    (<["builder" := B_ "builder" 0 None None]> ∅).

Definition tie_map : gmap string (BotConfig loc) :=
  <["try-tests" := B_ "try-tests" 0 None None]>
    (<["fyi-tests" := B_ "fyi-tests" 1 None None]> ∅).

(** * Properties *)

(** ** Strings *)

Lemma prefix_append (x s : string) :
  String.prefix x s = true ↔ ∃ post, s = x +:+ post.
Proof.
  revert s. induction x as [|a x IH]; intros s.
  - destruct s; split; simpl; eauto.
  - destruct s as [|b s]; cbn [String.prefix].
    + split; [discriminate | intros [post Hp]; discriminate].
    + destruct (Ascii.ascii_dec a b) as [->|Hab].
      * rewrite IH. split; intros [post Hp]; exists post.
        -- by rewrite Hp.
        -- by injection Hp.
      * split; [discriminate | intros [post Hp]; injection Hp; congruence].
Qed.

Lemma str_in_occurs (x s : string) : str_in x s = true ↔ occurs_in x s.
Proof.
  induction s as [|a s IH]; cbn [str_in].
  - rewrite orb_false_r, prefix_append. split.
    + intros [post Hp]. by exists "", post.
    + intros (pre & post & Hp). destruct pre; [by exists post | discriminate].
  - rewrite orb_true_iff, prefix_append, IH. split.
    + intros [[post Hp] | (pre & post & Hp)].
      * by exists "", post.
      * exists (String a pre), post. by rewrite Hp.
    + intros ([|b pre] & post & Hp).
      * left. by exists post.
      * right. exists pre, post. simpl in Hp. by injection Hp.
Qed.

Lemma max_by_len_elem (x : string) (l : list string) : max_by_len x l ∈ x :: l.
Proof.
  revert x. induction l as [|y l IH]; intros x; simpl.
  - apply elem_of_cons. by left.
  - destruct (_ <? _)%nat.
    + apply elem_of_cons. right. apply IH.
    + specialize (IH x). apply elem_of_cons in IH as [Heq|Hin].
      * rewrite Heq. apply elem_of_cons. by left.
      * do 2 (apply elem_of_cons; right). done.
Qed.

Lemma max_by_len_ge (x : string) (l : list string) :
  (String.length x ≤ String.length (max_by_len x l))%nat.
Proof.
  revert x. induction l as [|y l IH]; intros x; simpl; [lia|].
  destruct (Nat.ltb_spec (String.length x) (String.length y)).
  - specialize (IH y). lia.
  - apply IH.
Qed.

Lemma max_by_len_max (x : string) (l : list string) (y : string) :
  y ∈ x :: l → (String.length y ≤ String.length (max_by_len x l))%nat.
Proof.
  revert x. induction l as [|z l IH]; intros x Hy; simpl.
  - apply list_elem_of_singleton in Hy as ->. lia.
  - destruct (Nat.ltb_spec (String.length x) (String.length z)) as [Hlt|Hge].
    + apply elem_of_cons in Hy as [->|Hy]; [|by apply IH].
      pose proof (max_by_len_ge z l). lia.
    + apply elem_of_cons in Hy as [->|Hy]; [apply max_by_len_ge|].
      apply elem_of_cons in Hy as [->|Hy].
      * pose proof (max_by_len_ge x l). lia.
      * apply IH. apply elem_of_cons. by right.
Qed.

(** ** The table is built *)

Lemma GetBotStepMap_runs : GetBotStepMap [] = inr (bot_table, bot_heap).
Proof.
  assert (match GetBotStepMap [] with inr _ => true | inl _ => false end = true)
    as Hruns by (vm_compute; reflexivity).
  unfold bot_table, bot_heap.
  destruct (GetBotStepMap []) as [e|[m h]]; [discriminate | reflexivity].
Qed.

(** ** Resolution *)

Section DriverProperties.

Context {P : Platform}.

#[local] Abbreviation json := (json number).

Lemma substring_matches_spec (bot_map : gmap string (BotConfig loc))
    (bot_id k : string) :
  iterkeys_enumerates →
  k ∈ filter (λ x, str_in x bot_id = true) (iterkeys bot_map) ↔
  is_Some (bot_map !! k) ∧ occurs_in k bot_id.
Proof.
  intros Hkeys. rewrite list_elem_of_filter, str_in_occurs, (Hkeys bot_map k).
  tauto.
Qed.

(** C1. Resolution returns the configuration stored under [bot_id] when
    [bot_id] is a key of the table.  Otherwise, when some key occurs
    literally in [bot_id], it returns the configuration of a key that
    occurs in [bot_id] and is at least as long as every key that does. *)
Theorem resolve_exact_then_longest_substring
    (bot_map : gmap string (BotConfig loc)) (bot_id : string) :
  iterkeys_enumerates →
  (∀ c, bot_map !! bot_id = Some c →
        (resolve bot_map bot_id).2 = inr (Some c)) ∧
  (bot_map !! bot_id = None →
   (∃ k, is_Some (bot_map !! k) ∧ occurs_in k bot_id) →
   ∃ k c,
     bot_map !! k = Some c ∧ occurs_in k bot_id ∧
     (∀ k', is_Some (bot_map !! k') → occurs_in k' bot_id →
            (String.length k' ≤ String.length k)%nat) ∧
     (resolve bot_map bot_id).2 = inr (Some c)).
Proof.
  intros Hkeys. split.
  - intros c Hc. unfold resolve. by rewrite Hc.
  - intros Hnone (k0 & Hk0 & Hocc0). unfold resolve. rewrite Hnone.
    pose proof (λ k, substring_matches_spec bot_map bot_id k Hkeys) as Hspec.
    destruct (filter _ _) as [|x l] eqn:Hf.
    + pose proof (proj2 (Hspec k0) (conj Hk0 Hocc0)) as Hin0.
      by apply not_elem_of_nil in Hin0.
    + pose proof (max_by_len_elem x l) as Hin.
      apply Hspec in Hin as [[c Hc] Hocc].
      exists (max_by_len x l), c. rewrite Hc.
      split; [done|]. split; [done|]. split; [|done].
      intros k' Hk' Hocc'. apply max_by_len_max, Hspec; auto.
Qed.




(** ** The command formatter *)

Lemma foldl_test_flags (init tests : list string) :
  foldl (λ cmd test, cmd ++ ["-f"; test]) init tests =
  init ++ concat ((λ test, ["-f"; test]) <$> tests).
Proof.
  revert init. induction tests as [|t tests IH]; intros init; simpl.
  - by rewrite app_nil_r.
  - rewrite IH. by rewrite <- app_assoc.
Qed.

(** C4. [GetCommands] returns the "Host steps" command exactly when
    [host_opts] is not empty, then the "Run tests" command exactly when
    there is a test spec.  The bare argv of the latter is the device-step
    script, [--reboot], the three property arguments, a [-f test] pair
    per test in the declared order, then the extra arguments; its
    [command] is that argv quoted, joined and wrapped for bash. *)
Theorem GetCommands_shape (options : Options) (h : heap)
    (bot_config : BotConfig loc) :
  let slave_properties := json_dumps (props_json (merged_slave_props bot_config)) in
  let pargs :=
    [ "--factory-properties=" +:+ json_dumps (factory_properties options);
      "--build-properties=" +:+ json_dumps (build_properties options);
      "--slave-properties=" +:+ slave_properties ] in
  let wrap name argv :=
    mkCommand (Some name)
      (WrapWithBash slave_properties (join " " (pipes_quote <$> argv)))
      (Some argv) in
  let host_cmd :=
    ["build/android/buildbot/bb_host_steps.py"] ++
    deref h (host_opts bot_config) ++ pargs in
  let run_test_cmd t :=
    ["build/android/buildbot/bb_device_steps.py"; "--reboot"] ++ pargs ++
    concat ((λ test, ["-f"; test]) <$> deref h (tests t)) ++
    default [] (deref h <$> extra_args t) in
  GetCommands options h bot_config =
    (if bool_decide (deref h (host_opts bot_config) = []) then []
     else [wrap "Host steps" host_cmd]) ++
    (match test_obj bot_config with
     | Some t => [wrap "Run tests" (run_test_cmd t)]
     | None => []
     end).
Proof.
  intros slave_properties pargs wrap host_cmd run_test_cmd.
  unfold GetCommands. fold slave_properties.
  change (property_args options slave_properties) with pargs.
  assert (∀ t,
    match deref h <$> extra_args t with
    | Some (a :: l) =>
        foldl (λ cmd test, cmd ++ ["-f"; test])
          (["build/android/buildbot/bb_device_steps.py"; "--reboot"] ++ pargs)
          (deref h (tests t)) ++ a :: l
    | _ =>
        foldl (λ cmd test, cmd ++ ["-f"; test])
          (["build/android/buildbot/bb_device_steps.py"; "--reboot"] ++ pargs)
          (deref h (tests t))
    end = run_test_cmd t) as Htest.
  { intros t. unfold run_test_cmd. rewrite foldl_test_flags.
    destruct (deref h <$> extra_args t) as [[|a l]|]; simpl;
      by rewrite ?app_nil_r. }
  destruct (deref h (host_opts bot_config)) as [|o opts] eqn:Hopts;
    destruct (test_obj bot_config) as [t|]; simpl;
    rewrite ?Htest; subst host_cmd; rewrite ?Hopts; reflexivity.
Qed.

(** ** Running the commands *)



Lemma run_commands_cons (testing : bool) (c : Command) (rest : list Command)
    (w : World) :
  run_commands testing (c :: rest) w =
  if testing then
    match testing_cmd c with
    | Some (a :: l) => round_go testing c rest (a :: l) true w
    | _ =>
        let '(evs, r, w2) := run_commands testing rest w in
        (round_head c ++ evs, r, w2)
    end
  else round_go testing c rest (command c) false w.
Proof. reflexivity. Qed.



Lemma invoked_cons (testing : bool) (c : Command) (rest : list Command) :
  invoked testing (c :: rest) =
  if testing then
    match testing_cmd c with
    | Some (a :: l) => (a :: l) :: invoked testing rest
    | _ => invoked testing rest
    end
  else command c :: invoked testing rest.
Proof.
  unfold invoked. destruct testing; simpl; [|done].
  by destruct (testing_cmd c) as [[|a l]|].
Qed.






(** ** Every command has a name and a testing form *)

Lemma stepped_round_go (testing : bool) (c : Command) (rest : list Command)
    (argv : list string) (env : bool) (w : World) :
  (step_name c = Some "Host steps" ∨ step_name c = Some "Run tests") →
  (∀ w1, stepped (run_commands testing rest w1).1.1) →
  stepped (round_go testing c rest argv env w).1.1.
Proof.
  intros Hname IH. unfold round_go.
  destruct (subprocess_call argv CHROME_SRC env w) as [return_code w1].
  assert (round_head c =
          [PrintNamedStep (default "" (step_name c));
           Print (CommandToString (command c)); Flush]) as ->
    by (unfold round_head; destruct Hname as [-> | ->]; reflexivity).
  destruct (decide (return_code ≠ 0%Z)).
  - cbn [fst snd app]. apply stepped_round, stepped_nil.
  - specialize (IH w1). destruct (run_commands testing rest w1) as [[evs r] w2].
    cbn [fst snd app] in *. by apply stepped_round.
Qed.

Lemma run_commands_stepped (testing : bool) (command_objs : list Command)
    (w : World) :
  Forall named_and_testable command_objs →
  stepped (run_commands testing command_objs w).1.1.
Proof.
  intros Hall. revert w.
  induction Hall as [|c rest [Hname (a & l & Htest)] _ IH]; intros w.
  - apply stepped_nil.
  - rewrite run_commands_cons. destruct testing.
    + rewrite Htest. by apply stepped_round_go.
    + by apply stepped_round_go.
Qed.

Lemma round_head_named (c : Command) :
  (step_name c = Some "Host steps" ∨ step_name c = Some "Run tests") →
  round_head c =
  [PrintNamedStep (default "" (step_name c));
   Print (CommandToString (command c)); Flush].
Proof. unfold round_head. by intros [-> | ->]. Qed.

Lemma rounds_round_go (testing : bool) (c : Command) (rest : list Command)
    (w : World) :
  (step_name c = Some "Host steps" ∨ step_name c = Some "Run tests") →
  (∀ w1, rounds_of_run testing rest (run_commands testing rest w1)) →
  rounds_of_run testing (c :: rest)
    (round_go testing c rest
       (if testing then default [] (testing_cmd c) else command c) testing w).
Proof.
  intros Hname IH. unfold round_go.
  set (argv := if testing then default [] (testing_cmd c) else command c).
  destruct (subprocess_call argv CHROME_SRC testing w) as [return_code w1]
    eqn:Hcall.
  assert (round_head c ++ [Call argv CHROME_SRC testing return_code] =
          round_of testing c return_code) as Hround
    by (by rewrite (round_head_named c Hname)).
  rewrite Hround. destruct (decide (return_code ≠ 0%Z)) as [Hrc|Hrc].
  - exists [return_code]. cbn [fst snd]. split.
    { destruct rest; reflexivity. }
    split; [simpl; lia|]. split; [done|]. by exists [].
  - apply dec_stable in Hrc. subst return_code. specialize (IH w1).
    destruct (run_commands testing rest w1) as [[evs r] w2].
    destruct IH as (codes & Hevs & Hlen & Hr). cbn [fst snd] in *.
    exists (0%Z :: codes). split; [by rewrite Hevs|].
    split; [simpl; lia|]. destruct r as [code|].
    + destruct Hr as (Hcode & zeros & -> & Hzeros). split; [done|].
      exists (0%Z :: zeros). split; [done|]. by constructor.
    + destruct Hr as [Hlen' Hall]. split; [simpl; lia|]. by constructor.
Qed.

(** Over commands that are named and have a testing form, the loop
    writes whole rounds, one for each command up to the first failure. *)
Lemma run_commands_rounds (testing : bool) (command_objs : list Command)
    (w : World) :
  Forall named_and_testable command_objs →
  rounds_of_run testing command_objs (run_commands testing command_objs w).
Proof.
  intros Hall. revert w.
  induction Hall as [|c rest [Hname (a & l & Htest)] _ IH]; intros w.
  - exists []. by cbn.
  - rewrite run_commands_cons.
    pose proof (rounds_round_go testing c rest w Hname IH) as Hgo.
    destruct testing; [|exact Hgo].
    rewrite Htest in Hgo |- *. exact Hgo.
Qed.

Lemma run_commands_first_round (testing : bool) (command_objs : list Command)
    (w : World) :
  Forall named_and_testable command_objs →
  first_round_of_run testing command_objs w
    (run_commands testing command_objs w).
Proof.
  intros Hall. destruct Hall as [|c rest [Hname (a & l & Htest)] _]; [done|].
  unfold first_round_of_run.
  set (argv := if testing then default [] (testing_cmd c) else command c).
  assert (run_commands testing (c :: rest) w =
          round_go testing c rest argv testing w) as ->.
  { rewrite run_commands_cons. subst argv. destruct testing; [|done].
    by rewrite Htest. }
  unfold round_go.
  destruct (subprocess_call argv CHROME_SRC testing w) as [return_code w1].
  assert (round_head c ++ [Call argv CHROME_SRC testing return_code] =
          round_of testing c return_code) as Hround
    by (by rewrite (round_head_named c Hname)).
  rewrite Hround. cbn [fst]. destruct (decide (return_code ≠ 0%Z)).
  - exists []. cbn [fst snd]. by rewrite app_nil_r.
  - destruct (run_commands testing rest w1) as [[evs r] w2]. by exists evs.
Qed.

(** C10. Every command [GetCommands] returns is named "Host steps" or
    "Run tests" and has a non-empty testing form.  Hence the trace of
    the loop over them, in either mode, is one whole round for each
    command up to and with the first whose child fails, all of them when
    none fails: the step marker with the name of the command, its
    command line, the flush, and the child the mode calls for, in
    testing mode always the testing form.  The first round is that of
    the first command; no round is skipped and none is cut short. *)
Theorem GetCommands_named_and_testable (options : Options) (h : heap)
    (bot_config : BotConfig loc) (testing : bool) (w : World) :
  Forall named_and_testable (GetCommands options h bot_config) ∧
  stepped (run_commands testing (GetCommands options h bot_config) w).1.1 ∧
  invoked true (GetCommands options h bot_config) =
    omap testing_cmd (GetCommands options h bot_config) ∧
  rounds_of_run testing (GetCommands options h bot_config)
    (run_commands testing (GetCommands options h bot_config) w) ∧
  first_round_of_run testing (GetCommands options h bot_config) w
    (run_commands testing (GetCommands options h bot_config) w).
Proof.
  assert (Forall named_and_testable (GetCommands options h bot_config)) as Hall.
  { unfold GetCommands.
    set (pargs := property_args _ _).
    assert (∀ tests extra, ∃ a l,
      match extra with
      | Some (a :: l) =>
          foldl (λ cmd test, cmd ++ ["-f"; test])
            (["build/android/buildbot/bb_device_steps.py"; "--reboot"] ++ pargs)
            tests ++ a :: l
      | _ =>
          foldl (λ cmd test, cmd ++ ["-f"; test])
            (["build/android/buildbot/bb_device_steps.py"; "--reboot"] ++ pargs)
            tests
      end = a :: l) as Htest.
    { intros tests extra. rewrite foldl_test_flags.
      destruct extra as [[|a l]|]; simpl; eauto. }
    destruct (deref h (host_opts bot_config)) as [|o opts];
      destruct (test_obj bot_config) as [t|]; simpl;
      repeat (apply Forall_cons; split); try apply Forall_nil;
      unfold named_and_testable; simpl; eauto.
    - split; [by right|].
      destruct (Htest (deref h (tests t)) (deref h <$> extra_args t))
        as (a & l & Heq).
      exists a, l. f_equal. exact Heq.
    - split; [by right|].
      destruct (Htest (deref h (tests t)) (deref h <$> extra_args t))
        as (a & l & Heq).
      exists a, l. f_equal. exact Heq. }
  split; [done|]. split; [by apply run_commands_stepped|].
  split; [|split; [by apply run_commands_rounds
                  |by apply run_commands_first_round]].
  induction Hall as [|c rest [_ (a & l & Htest)] _ IH]; [done|].
  rewrite invoked_cons, Htest. simpl. by rewrite Htest, IH.
Qed.

(** ** Option parsing *)

Lemma parse_args_app (pre rest : list cli_arg) (values : Options)
    (largs : list string) :
  parse_args (pre ++ rest) values largs =
  match parse_args pre values largs with
  | inl stop => inl stop
  | inr (values', largs') => parse_args rest values' largs'
  end.
Proof.
  revert values largs.
  induction pre as [|[value|value|value| | |msg|arg] pre IH];
    intros values largs; simpl; try done.
  - by destruct (json_loads value).
  - by destruct (json_loads value).
Qed.

(** C7, as the code has it.  A [--build-properties] or
    [--factory-properties] value that [json.loads] rejects, met after
    options that were all accepted, ends the run with the [ValueError] of
    the callback, which is not turned into a usage error; nothing has been
    printed, resolved or run by then. *)
Theorem json_decode_failure_is_uncaught_ValueError
    (pre rest : list cli_arg) (opt : cli_arg) (value : string)
    (values : Options) (largs : list string) (w : World) :
  opt = Opt_build_properties value ∨ opt = Opt_factory_properties value →
  json_loads value = None →
  parse_args pre default_options [] = inr (values, largs) →
  main (pre ++ opt :: rest) w = ([], Uncaught ValueError, w).
Proof.
  intros Hopt Hbad Hpre. unfold main.
  rewrite parse_args_app, Hpre.
  destruct Hopt as [-> | ->]; cbn [parse_args]; rewrite Hbad; reflexivity.
Qed.

Lemma parse_args_bot_id (argv : list cli_arg) (values options : Options)
    (largs args : list string) :
  parse_args argv values largs = inr (options, args) →
  opt_bot_id options = last_bot_id argv (opt_bot_id values).
Proof.
  revert values largs.
  induction argv as [|[value|value|value| | |msg|arg] argv IH];
    intros values largs Hparse; simpl in *.
  - by injection Hparse as <- _.
  - destruct (json_loads value); [|done]. by apply IH in Hparse.
  - destruct (json_loads value); [|done]. by apply IH in Hparse.
  - by apply IH in Hparse.
  - by apply IH in Hparse.
  - done.
  - done.
  - by apply IH in Hparse.
Qed.

(** C8, as the code has it.  A [--bot-id] whose value is not empty is
    the bot id, whatever the factory properties hold, be they no JSON
    object at all.  Without the flag, or with an empty value, the
    [android_bot_id] entry of the factory properties is taken. *)
Theorem bot_id_flag_takes_precedence
    (argv : list cli_arg) (options : Options) (args : list string) :
  parse_args argv default_options [] = inr (options, args) →
  (∀ a s, last_bot_id argv None = Some (String a s) →
          select_bot_id options = inr (JStr (String a s))) ∧
  (last_bot_id argv None = None ∨ last_bot_id argv None = Some "" →
   select_bot_id options =
     match factory_properties options with
     | JDict d => inr (default JNull (dict_get d "android_bot_id"))
     | _ => inl AttributeError
     end).
Proof.
  intros Hparse. apply parse_args_bot_id in Hparse. simpl in Hparse.
  unfold select_bot_id. rewrite Hparse. split.
  - by intros a s ->.
  - by intros [-> | ->].
Qed.

End DriverProperties.

(** ** Building the table *)

Lemma returns_ret {A} (a : A) (Q : A → Prop) : Q a → returns (mret a) Q.
Proof. intros HQ h. by exists a, h. Qed.

Lemma returns_bind {A B} (c : M A) (k : A → M B) (Q : A → Prop)
    (R : B → Prop) :
  returns c Q → (∀ a, Q a → returns (k a) R) → returns (c ≫= k) R.
Proof.
  intros Hc Hk h. destruct (Hc h) as (a & h1 & Hrun & HQ).
  destruct (Hk a HQ h1) as (b & h2 & Hrun2 & HR).
  exists b, h2. unfold mbind, M_bind. by rewrite Hrun.
Qed.

Lemma returns_weaken {A} (c : M A) (Q R : A → Prop) :
  returns c Q → (∀ a, Q a → R a) → returns c R.
Proof.
  intros Hc HQR h. destruct (Hc h) as (a & h' & Hrun & HQ).
  exists a, h'. auto.
Qed.

Lemma returns_new_list (l : list string) : returns (new_list l) (λ _, True).
Proof. intros h. by eexists _, _. Qed.

Lemma returns_read_list (r : loc) : returns (read_list r) (λ _, True).
Proof. intros h. by eexists _, _. Qed.

Lemma returns_list_remove (r : loc) (x : string) :
  returns (list_remove r x) (λ _, True).
Proof. intros h. by eexists _, _. Qed.

Lemma returns_deepcopy_list (m : memo) (r : loc) :
  returns (deepcopy_list m r) (λ _, True).
Proof.
  unfold deepcopy_list. destruct (memo_get m r); [by apply returns_ret|].
  intros h. by eexists _, _.
Qed.

Lemma returns_deepcopy_test (m : memo) (t : TestConfig loc) :
  returns (deepcopy_test m t) (λ _, True).
Proof.
  unfold deepcopy_test.
  eapply returns_bind; [apply returns_deepcopy_list|].
  intros [ts m1] _. destruct (extra_args t); [|by apply returns_ret].
  eapply returns_bind; [apply returns_deepcopy_list|].
  intros [ea m2] _. by apply returns_ret.
Qed.

Lemma returns_deepcopy (c : BotConfig loc) : returns (deepcopy c) (λ _, True).
Proof.
  unfold deepcopy.
  eapply returns_bind; [apply returns_deepcopy_list|].
  intros [ho m1] _. destruct (test_obj c); [|by apply returns_ret].
  eapply returns_bind; [apply returns_deepcopy_test|].
  intros [t' m2] _. by apply returns_ret.
Qed.

(** A round of the alias loop that passes its two checks adds the new
    id, bound to a configuration that carries it. *)
Lemma returns_copy_step (bot_map : gmap string (BotConfig loc))
    (to_id from_id : string) (src : BotConfig loc) :
  bot_map !! to_id = None →
  bot_map !! from_id = Some src →
  returns (copy_step bot_map to_id from_id)
    (λ m, ∃ new, m = <[to_id := new]> bot_map ∧ bot_id new = to_id).
Proof.
  intros Hto Hfrom. unfold copy_step. rewrite Hto, Hfrom.
  eapply returns_bind; [apply returns_deepcopy|]. intros cp _.
  assert (returns (mret (M := M) (<[to_id := replace_bot_id cp to_id]> bot_map))
            (λ m, ∃ new, m = <[to_id := new]> bot_map ∧ bot_id new = to_id))
    as Hret by (apply returns_ret; eauto).
  cbn [replace_bot_id test_obj].
  destruct (test_obj cp) as [t|]; [|done].
  destruct (String.prefix "try" to_id); [|done].
  destruct (extra_args t) as [ea|]; [|done].
  eapply returns_bind; [apply returns_read_list|]. intros l _.
  eapply returns_bind; [|by intros].
  destruct (_ && _); [apply returns_list_remove | by apply returns_ret].
Qed.

Lemma copy_loop_ok (copy_map : list (string * string))
    (bot_map : gmap string (BotConfig loc)) (h : heap) :
  aliases_ok (dom bot_map) copy_map →
  keyed_by_bot_id bot_map →
  ∃ m h', copy_loop bot_map copy_map h = inr (m, h') ∧
          dom m = dom bot_map ∪ list_to_set copy_map.*1 ∧
          keyed_by_bot_id m.
Proof.
  revert bot_map h.
  induction copy_map as [|[to_id from_id] rest IH]; intros bot_map h Hok Hkeyed.
  - exists bot_map, h. split; [done|]. split; [set_solver|done].
  - destruct Hok as (Hto & Hfrom & Hrest).
    apply not_elem_of_dom in Hto. apply elem_of_dom in Hfrom as [src Hfrom].
    destruct (returns_copy_step bot_map to_id from_id src Hto Hfrom h)
      as (m1 & h1 & Hstep & new & -> & Hnew).
    destruct (IH (<[to_id := new]> bot_map) h1) as (m & h' & Hloop & Hdom & Hk).
    + by rewrite dom_insert_L.
    + intros k c. rewrite lookup_insert. case_decide; [|by apply Hkeyed].
      intros [= <-]. congruence.
    + exists m, h'. cbn [copy_loop]. unfold mbind, M_bind. rewrite Hstep.
      split; [done|]. split; [|done].
      rewrite Hdom, dom_insert_L. set_solver.
Qed.

Lemma copy_loop_fails (copy_map : list (string * string))
    (bot_map : gmap string (BotConfig loc)) (h : heap) :
  ¬ aliases_ok (dom bot_map) copy_map →
  ∃ e, copy_loop bot_map copy_map h = inl e ∧
       (e = AssertionError ∨ ∃ k, e = KeyError k).
Proof.
  revert bot_map h.
  induction copy_map as [|[to_id from_id] rest IH]; intros bot_map h Hbad.
  - by destruct Hbad.
  - cbn [copy_loop]. unfold mbind, M_bind.
    destruct (bot_map !! to_id) as [old|] eqn:Hto.
    { exists AssertionError. unfold copy_step. rewrite Hto. eauto. }
    destruct (bot_map !! from_id) as [src|] eqn:Hfrom.
    2:{ exists (KeyError from_id). unfold copy_step. rewrite Hto, Hfrom. eauto. }
    destruct (returns_copy_step bot_map to_id from_id src Hto Hfrom h)
      as (m1 & h1 & Hstep & new & -> & Hnew).
    rewrite Hstep. apply IH. intros Hrest. apply Hbad.
    split; [by apply not_elem_of_dom|]. split; [by apply elem_of_dom|].
    by rewrite dom_insert_L in Hrest.
Qed.

Lemma dict_of_pairs_snoc {V} (l : list (string * V)) (k : string) (v : V) :
  dict_of_pairs (l ++ [(k, v)]) = <[k := v]> (dict_of_pairs l).
Proof. unfold dict_of_pairs. by rewrite foldl_app. Qed.

Lemma dom_dict_of_pairs {V} (l : list (string * V)) :
  dom (dict_of_pairs l) = list_to_set l.*1.
Proof.
  induction l as [|[k v] l IH] using rev_ind; [set_solver|].
  rewrite dict_of_pairs_snoc, dom_insert_L, IH, fmap_app, list_to_set_app_L.
  set_solver.
Qed.

(** The last pair with a key is the one [dict] keeps. *)
Lemma dict_of_pairs_last {V} (pre post : list (string * V)) (k : string) (v : V) :
  k ∉ post.*1 → dict_of_pairs (pre ++ (k, v) :: post) !! k = Some v.
Proof.
  induction post as [|[k' v'] post IH] using rev_ind; intros Hk.
  - by rewrite dict_of_pairs_snoc, lookup_insert_eq.
  - rewrite fmap_app, elem_of_app in Hk. simpl in Hk.
    change (pre ++ (k, v) :: post ++ [(k', v')])
      with (pre ++ ((k, v) :: post) ++ [(k', v')]).
    rewrite app_assoc, dict_of_pairs_snoc, lookup_insert_ne.
    + apply IH. tauto.
    + intros ->. apply Hk. right. apply elem_of_cons. by left.
Qed.

Lemma keyed_dict_of_configs (bot_configs : list (BotConfig loc)) :
  keyed_by_bot_id
    (dict_of_pairs ((λ config, (bot_id config, config)) <$> bot_configs)).
Proof.
  induction bot_configs as [|c l IH] using rev_ind; [by intros k c'|].
  rewrite fmap_app. simpl. rewrite dict_of_pairs_snoc. intros k c'.
  rewrite lookup_insert. case_decide; [|by apply IH].
  by intros [= <-].
Qed.

(** The alias loop stops at the first alias that fails a check, with the
    error of that check: the assertion when the new id is taken, else the
    key error of the source id when that is not defined. *)
Lemma copy_loop_first_failure (pre : list (string * string))
    (to_id from_id : string) (rest : list (string * string))
    (bot_map : gmap string (BotConfig loc)) (h : heap) :
  aliases_ok (dom bot_map) pre →
  (to_id ∈ dom bot_map ∪ list_to_set pre.*1 →
   copy_loop bot_map (pre ++ (to_id, from_id) :: rest) h =
     inl AssertionError) ∧
  (to_id ∉ dom bot_map ∪ list_to_set pre.*1 →
   from_id ∉ dom bot_map ∪ list_to_set pre.*1 →
   copy_loop bot_map (pre ++ (to_id, from_id) :: rest) h =
     inl (KeyError from_id)).
Proof.
  revert bot_map h.
  induction pre as [|[t f] pre IH]; intros bot_map h Hok.
  - cbn [app copy_loop]. unfold mbind, M_bind, copy_step. split.
    + intros Hto. assert (is_Some (bot_map !! to_id)) as [old Hold]
        by (apply elem_of_dom; set_solver).
      by rewrite Hold.
    + intros Hto Hfrom.
      assert (bot_map !! to_id = None) as ->
        by (apply not_elem_of_dom; set_solver).
      assert (bot_map !! from_id = None) as ->
        by (apply not_elem_of_dom; set_solver).
      done.
  - destruct Hok as (Ht & Hf & Hok).
    apply not_elem_of_dom in Ht. apply elem_of_dom in Hf as [src Hf].
    destruct (returns_copy_step bot_map t f src Ht Hf h)
      as (m1 & h1 & Hstep & new & -> & Hnew).
    destruct (IH (<[t := new]> bot_map) h1) as [IHa IHk];
      [by rewrite dom_insert_L|].
    rewrite dom_insert_L in IHa, IHk.
    change (((t, f) :: pre) ++ (to_id, from_id) :: rest)
      with ((t, f) :: (pre ++ (to_id, from_id) :: rest)).
    cbn [copy_loop]. unfold mbind, M_bind. rewrite Hstep. split.
    + intros Hto. apply IHa. set_solver.
    + intros Hto Hfrom. apply IHk; set_solver.
Qed.

(** X17. Indexing the primary entries never fails: of two entries with
    one id the later is kept.  The alias loop succeeds when every alias
    has a new id that is free when its turn comes and a source id that
    is defined by then; the ids of the table are then those of the
    primaries and of the aliases, each bound to a configuration that
    carries it.  Otherwise the build fails, at the first alias that
    breaks a rule: with the assertion when its new id is taken, and with
    the key error of its source id when the new id is free and the
    source is not defined. *)
Theorem build_bot_map_checks_aliases_only
    (bot_configs : list (BotConfig loc)) (copy_map : list (string * string))
    (h : heap) :
  let primary : gset string := list_to_set (bot_id <$> bot_configs) in
  let index :=
    dict_of_pairs ((λ config, (bot_id config, config)) <$> bot_configs) in
  build_bot_map bot_configs [] h = inr (index, h) ∧
  (∀ pre c post,
     bot_configs = pre ++ c :: post → bot_id c ∉ bot_id <$> post →
     index !! bot_id c = Some c) ∧
  (aliases_ok primary copy_map →
   ∃ m h', build_bot_map bot_configs copy_map h = inr (m, h') ∧
           dom m = primary ∪ list_to_set copy_map.*1 ∧
           keyed_by_bot_id m) ∧
  (¬ aliases_ok primary copy_map →
   ∃ e, build_bot_map bot_configs copy_map h = inl e ∧
        (e = AssertionError ∨ ∃ k, e = KeyError k)) ∧
  (∀ pre to_id from_id rest,
     copy_map = pre ++ (to_id, from_id) :: rest →
     aliases_ok primary pre →
     (to_id ∈ primary ∪ list_to_set pre.*1 →
      build_bot_map bot_configs copy_map h = inl AssertionError) ∧
     (to_id ∉ primary ∪ list_to_set pre.*1 →
      from_id ∉ primary ∪ list_to_set pre.*1 →
      build_bot_map bot_configs copy_map h = inl (KeyError from_id))).
Proof.
  intros primary index.
  assert (dom index = primary) as Hdom.
  { unfold index, primary. rewrite dom_dict_of_pairs, <- list_fmap_compose.
    done. }
  split; [done|]. split.
  - intros pre c post -> Hpost. unfold index.
    rewrite fmap_app, fmap_cons. apply dict_of_pairs_last.
    by rewrite <- list_fmap_compose.
  - unfold build_bot_map. fold index. rewrite <- Hdom. split.
    + intros Hok. apply copy_loop_ok; [done|]. apply keyed_dict_of_configs.
    + split; [apply copy_loop_fails|].
      intros pre to_id from_id rest -> Hok.
      by apply copy_loop_first_failure.
Qed.

(** ** The aliases of the table *)

Lemma try_alias_checks : forallb try_alias_check copy_map = true.
Proof. vm_compute. reflexivity. Qed.

(** C2. For every alias of [copy_map] whose new id starts with "try" and
    whose source, as declared, has a test spec with the dashboard flag
    among its extra arguments: in the table [GetBotStepMap] returns, the
    alias has extra arguments without the flag and the source still has
    extra arguments with it. *)
Theorem try_aliases_drop_flakiness_flag
    (to_id from_id : string) (l : list string) :
  (to_id, from_id) ∈ copy_map →
  String.prefix "try" to_id = true →
  declared_map !! from_id ≫= extra_args_value declared_heap = Some l →
  flakiness_server ∈ l →
  GetBotStepMap [] = inr (bot_table, bot_heap) ∧
  (∃ l', bot_table !! to_id ≫= extra_args_value bot_heap = Some l' ∧
         flakiness_server ∉ l') ∧
  (∃ l'', bot_table !! from_id ≫= extra_args_value bot_heap = Some l'' ∧
          flakiness_server ∈ l'').
Proof.
  intros Hin Htry Hsrc Hflag. split; [exact GetBotStepMap_runs|].
  pose proof (proj1 (forallb_forall _ _) try_alias_checks (to_id, from_id))
    as Hcheck.
  apply list_elem_of_In in Hin. specialize (Hcheck Hin). clear Hin.
  unfold try_alias_check in Hcheck. rewrite Htry, Hsrc in Hcheck.
  rewrite (bool_decide_eq_true_2 _ Hflag) in Hcheck. clear Hsrc Htry.
  destruct (bot_table !! to_id ≫= extra_args_value bot_heap) as [l'|];
    [|discriminate Hcheck].
  destruct (bot_table !! from_id ≫= extra_args_value bot_heap) as [l''|];
    [|discriminate Hcheck].
  apply andb_true_iff in Hcheck as [Hnot Hstill].
  apply bool_decide_eq_true_1 in Hnot. apply bool_decide_eq_true_1 in Hstill.
  split; [exists l' | exists l'']; (split; [reflexivity | assumption]).
Qed.

(** ** Determinism *)

Lemma GetBotStepMap_runs_again :
  GetBotStepMap bot_heap = inr (second_table, second_heap).
Proof.
  assert (match GetBotStepMap bot_heap with inr _ => true | inl _ => false end
          = true) as Hruns by (vm_compute; reflexivity).
  unfold second_table, second_heap.
  destruct (GetBotStepMap bot_heap) as [e|[m h]]; [discriminate | reflexivity].
Qed.

Lemma second_table_same_values :
  config_value second_heap <$> second_table = config_value bot_heap <$> bot_table.
Proof.
  assert (bool_decide (config_value second_heap <$> second_table =
                       config_value bot_heap <$> bot_table) = true) as Heq
    by (vm_compute; reflexivity).
  exact (bool_decide_eq_true_1 _ Heq).
Qed.

Lemma first_table_values_kept :
  config_value second_heap <$> bot_table = config_value bot_heap <$> bot_table.
Proof.
  assert (bool_decide (config_value second_heap <$> bot_table =
                       config_value bot_heap <$> bot_table) = true) as Heq
    by (vm_compute; reflexivity).
  exact (bool_decide_eq_true_1 _ Heq).
Qed.

Section Determinism.

Context {P : Platform}.

(** [GetCommands] reads a configuration through its value only. *)
Lemma GetCommands_value (options : Options) (h1 h2 : heap)
    (c1 c2 : BotConfig loc) :
  config_value h1 c1 = config_value h2 c2 →
  GetCommands options h1 c1 = GetCommands options h2 c2.
Proof.
  destruct c1 as [id1 ho1 t1 sp1], c2 as [id2 ho2 t2 sp2].
  unfold config_value. cbn [bot_id host_opts test_obj slave_props].
  intros [= _ Hho Ht ->]. unfold GetCommands, merged_slave_props.
  cbn [bot_id host_opts test_obj slave_props]. rewrite Hho.
  destruct t1 as [[ts1 ea1]|], t2 as [[ts2 ea2]|]; try discriminate Ht;
    [|reflexivity].
  unfold test_value in Ht. cbn [tests extra_args fmap option_fmap option_map] in *.
  injection Ht as Hts Hea. by rewrite Hts, Hea.
Qed.

(** C9. A second call of [GetBotStepMap], made after the first, returns a
    table with the same values and leaves those of the first untouched;
    [GetCommands] on equal options and configurations of equal value
    returns equal command lists. *)
Theorem table_and_commands_deterministic :
  GetBotStepMap [] = inr (bot_table, bot_heap) ∧
  GetBotStepMap bot_heap = inr (second_table, second_heap) ∧
  config_value second_heap <$> second_table =
    config_value bot_heap <$> bot_table ∧
  config_value second_heap <$> bot_table =
    config_value bot_heap <$> bot_table ∧
  (∀ options h1 c1 h2 c2,
     config_value h1 c1 = config_value h2 c2 →
     GetCommands options h1 c1 = GetCommands options h2 c2).
Proof.
  split; [exact GetBotStepMap_runs|].
  split; [exact GetBotStepMap_runs_again|].
  split; [exact second_table_same_values|].
  split; [exact first_table_values_kept|].
  intros options h1 c1 h2 c2. apply GetCommands_value.
Qed.

End Determinism.

(** * The theorems at work on the sample platform *)

Lemma sample_iterkeys_enumerates : iterkeys_enumerates (P := sample_platform).
Proof.
  intros m k. cbn [iterkeys sample_platform]. rewrite list_elem_of_fmap. split.
  - intros ([k' c] & -> & Hin). apply elem_of_map_to_list in Hin. by exists c.
  - intros [c Hc]. exists (k, c). split; [done|]. by apply elem_of_map_to_list.
Qed.


Lemma resolve_exact_then_longest_substring_witness :
  ∃ k c,
    bot_table !! k = Some c ∧ occurs_in k "x-fyi-builder-rel-y" ∧
    (∀ k', is_Some (bot_table !! k') → occurs_in k' "x-fyi-builder-rel-y" →
           (String.length k' ≤ String.length k)%nat) ∧
    (resolve (P := sample_platform) bot_table "x-fyi-builder-rel-y").2 =
      inr (Some c).
Proof.
  apply (proj2 (resolve_exact_then_longest_substring
                  (P := sample_platform) bot_table "x-fyi-builder-rel-y"
                  sample_iterkeys_enumerates)).
  - vm_compute. reflexivity.
  - exists "builder". split.
    + vm_compute. eexists. reflexivity.
    + exists "x-fyi-", "-rel-y". reflexivity.
Defined.





Lemma try_aliases_drop_flakiness_flag_witness :
  GetBotStepMap [] = inr (bot_table, bot_heap) ∧
  (∃ l', bot_table !! "try-tests" ≫= extra_args_value bot_heap = Some l' ∧
         flakiness_server ∉ l') ∧
  (∃ l'', bot_table !! "main-tests" ≫= extra_args_value bot_heap = Some l'' ∧
          flakiness_server ∈ l'').
Proof.
  apply (try_aliases_drop_flakiness_flag "try-tests" "main-tests"
           [flakiness_server]).
  - apply list_elem_of_In. simpl. auto 10.
  - reflexivity.
  - vm_compute. reflexivity.
  - apply elem_of_cons. by left.
Defined.

(** A good alias, an alias whose new id is taken, and one whose source
    is not defined, the last after an alias that passes. *)
Lemma build_bot_map_checks_aliases_only_witness :
  (∃ m h',
     build_bot_map [B_ "a" 0 None None] [("try-a", "a")] [["--compile"]] =
       inr (m, h') ∧
     dom m = list_to_set (bot_id <$> [B_ (L := loc) "a" 0 None None]) ∪
             list_to_set [("try-a", "a")].*1 ∧
     keyed_by_bot_id m) ∧
  build_bot_map [B_ "a" 0 None None] [("a", "a")] [["--compile"]] =
    inl AssertionError ∧
  build_bot_map [B_ "a" 0 None None] [("try-a", "a"); ("b", "c")]
    [["--compile"]] = inl (KeyError "c").
Proof.
  split; [|split].
  - apply (proj1 (proj2 (proj2 (build_bot_map_checks_aliases_only
                                  [B_ "a" 0 None None] [("try-a", "a")]
                                  [["--compile"]])))).
    simpl. split; [set_solver|]. split; [set_solver|done].
  - apply (proj1 (proj2 (proj2 (proj2 (proj2
             (build_bot_map_checks_aliases_only
                [B_ "a" 0 None None] [("a", "a")] [["--compile"]]))))
             [] "a" "a" [] eq_refl I)).
    simpl. set_solver.
  - refine (proj2 (proj2 (proj2 (proj2 (proj2
              (build_bot_map_checks_aliases_only
                 [B_ "a" 0 None None] [("try-a", "a"); ("b", "c")]
                 [["--compile"]]))))
              [("try-a", "a")] "b" "c" [] eq_refl _) _ _).
    + simpl. split; [set_solver|]. split; [set_solver|done].
    + simpl. set_solver.
    + simpl. set_solver.
Defined.

Lemma json_decode_failure_is_uncaught_ValueError_witness :
  main (P := sample_platform)
    [Opt_TESTING; Opt_build_properties "{"; Opt_bot_id "main-tests"] [] =
  ([], Uncaught ValueError, []).
Proof.
  apply (json_decode_failure_is_uncaught_ValueError (P := sample_platform)
           [Opt_TESTING] [Opt_bot_id "main-tests"] (Opt_build_properties "{")
           "{" (mkOptions (JDict []) (JDict []) None true) [] []).
  - by left.
  - reflexivity.
  - reflexivity.
Defined.

(** C7 as stated fails: the run does not end in a usage error. *)
Lemma json_decode_failure_is_no_usage_error :
  json_loads (Platform := sample_platform) "{" = None ∧
  (main (P := sample_platform) [Opt_build_properties "{"] []).1.2 =
    Uncaught ValueError ∧
  ¬ ∃ why, (main (P := sample_platform) [Opt_build_properties "{"] []).1.2 =
           ParserError why.
Proof.
  split; [reflexivity|]. split; [reflexivity|]. intros [why Hwhy].
  discriminate Hwhy.
Qed.

Lemma bot_id_flag_takes_precedence_witness :
  select_bot_id (P := sample_platform)
    (mkOptions (JDict []) (JDict [("android_bot_id", JStr "main-tests")])
       (Some "try-tests") false) =
  inr (JStr "try-tests").
Proof.
  apply (proj1 (bot_id_flag_takes_precedence (P := sample_platform)
                  [Opt_factory_properties factory_text; Opt_bot_id "try-tests"]
                  (mkOptions (JDict [])
                     (JDict [("android_bot_id", JStr "main-tests")])
                     (Some "try-tests") false)
                  [] eq_refl) _ _).
  reflexivity.
Defined.

(** C8 as stated fails: an empty [--bot-id] gives way to the factory
    properties. *)
Lemma empty_bot_id_flag_is_not_used :
  parse_args (P := sample_platform)
    [Opt_bot_id ""; Opt_factory_properties factory_text] default_options [] =
    inr (mkOptions (JDict []) (JDict [("android_bot_id", JStr "main-tests")])
           (Some "") false, []) ∧
  select_bot_id (P := sample_platform)
    (mkOptions (JDict []) (JDict [("android_bot_id", JStr "main-tests")])
       (Some "") false) =
    inr (JStr "main-tests") ∧
  select_bot_id (P := sample_platform)
    (mkOptions (JDict []) (JDict [("android_bot_id", JStr "main-tests")])
       (Some "") false) ≠
    inr (JStr "").
Proof. split; [reflexivity|]. split; [reflexivity|discriminate]. Qed.

(** Two primaries with one id build a table, which keeps the later. *)
Lemma primary_collision_is_not_detected :
  let c1 : BotConfig loc := B_ "builder" 0 None None in
  let c2 : BotConfig loc := B_ "builder" 1 None None in
  bot_id c1 = bot_id c2 ∧
  build_bot_map [c1; c2] [] [["--compile"]; ["--zip-build"]] =
    inr (<["builder" := c2]> (<["builder" := c1]> ∅),
         [["--compile"]; ["--zip-build"]]).
Proof. split; reflexivity. Qed.

Lemma table_and_commands_deterministic_witness :
  GetCommands (P := sample_platform) default_options
    [["--compile"]] (B_ "builder" 0 None None) =
  GetCommands (P := sample_platform) default_options
    [[]; ["--compile"]] (B_ "builder" 1 None None).
Proof.
  apply (proj2 (proj2 (proj2 (proj2
           (table_and_commands_deterministic (P := sample_platform)))))).
  reflexivity.
Defined.

(** * Further properties *)

Section ParsingProperties.

Context {P : Platform}.

Lemma parse_args_ok_iff (argv : list cli_arg) (values : Options)
    (largs : list string) :
  Forall accepted argv ↔
  ∃ options args, parse_args argv values largs = inr (options, args).
Proof.
  revert values largs.
  induction argv as [|[value|value|value| | |msg|arg] argv IH];
    intros values largs; cbn [parse_args];
    [split; [by eexists _, _ | by constructor] | rewrite Forall_cons;
     cbn [accepted]..];
    try destruct (json_loads value) as [v|];
    try (split; [by intros [[] _] | by intros (? & ? & ?)]);
    (split; [intros [_ Hall]; apply IH; exact Hall
            | intros Hrun; split; [done|]; eapply IH; exact Hrun]).
Qed.

Lemma parse_args_largs (argv : list cli_arg) (values options : Options)
    (largs args : list string) :
  parse_args argv values largs = inr (options, args) →
  args = largs ++ positionals argv.
Proof.
  revert values largs.
  induction argv as [|[value|value|value| | |msg|arg] argv IH];
    intros values largs Hparse; cbn [parse_args] in Hparse;
    try destruct (json_loads value); try done;
    try (by apply IH in Hparse).
  - injection Hparse as _ <-. by rewrite app_nil_r.
  - apply IH in Hparse. by rewrite Hparse, <- app_assoc.
Qed.

Lemma parse_args_TESTING (argv : list cli_arg) (values options : Options)
    (largs args : list string) :
  parse_args argv values largs = inr (options, args) →
  TESTING options = true ↔ TESTING values = true ∨ Opt_TESTING ∈ argv.
Proof.
  revert values largs.
  induction argv as [|[value|value|value| | |msg|arg] argv IH];
    intros values largs Hparse; cbn [parse_args] in Hparse;
    try destruct (json_loads value); try done;
    try (apply IH in Hparse; cbn [TESTING] in Hparse;
         rewrite Hparse, elem_of_cons; split; [tauto|];
         by intros [?|[?|?]]; auto).
  - injection Hparse as <- _. split; [tauto|]. intros [?|Hin]; [done|].
    by apply not_elem_of_nil in Hin.
Qed.

Lemma parse_args_json (argv : list cli_arg) (values options : Options)
    (largs args : list string) :
  parse_args argv values largs = inr (options, args) →
  match last_value build_value argv with
  | Some text => json_loads text = Some (build_properties options)
  | None => build_properties options = build_properties values
  end ∧
  match last_value factory_value argv with
  | Some text => json_loads text = Some (factory_properties options)
  | None => factory_properties options = factory_properties values
  end.
Proof.
  revert values largs.
  induction argv as [|[value|value|value| | |msg|arg] argv IH];
    intros values largs Hparse; cbn [parse_args] in Hparse;
    cbn [last_value build_value factory_value];
    try (destruct (json_loads value) as [v|] eqn:Hv; [|done]);
    try done; try apply IH in Hparse as [Hb Hf];
    cbn [build_properties factory_properties] in *.
  - by injection Hparse as <- _.
  - split; [|by destruct (last_value factory_value argv)].
    destruct (last_value build_value argv); [done|]. by rewrite Hb.
  - split; [by destruct (last_value build_value argv)|].
    destruct (last_value factory_value argv); [done|]. by rewrite Hf.
  - by destruct (last_value build_value argv),
                (last_value factory_value argv).
  - by destruct (last_value build_value argv),
                (last_value factory_value argv).
  - by destruct (last_value build_value argv),
                (last_value factory_value argv).
Qed.

(** X1. [parse_args] goes through a command line exactly when each of
    its items is accepted: no [--help], no option [optparse] rejects, and
    every JSON value decodes.  What it then returns holds the positional
    arguments in order after those it started with, the testing flag if
    it was set or [--TESTING] occurs, the last [--bot-id] value, and for
    each JSON option the decoded value of its last occurrence. *)
Theorem parse_args_accepts (argv : list cli_arg) (values : Options)
    (largs : list string) :
  (Forall accepted argv ↔
   ∃ options args, parse_args argv values largs = inr (options, args)) ∧
  (∀ options args,
     parse_args argv values largs = inr (options, args) →
     args = largs ++ positionals argv ∧
     (TESTING options = true ↔ TESTING values = true ∨ Opt_TESTING ∈ argv) ∧
     opt_bot_id options = last_bot_id argv (opt_bot_id values) ∧
     match last_value build_value argv with
     | Some text => json_loads text = Some (build_properties options)
     | None => build_properties options = build_properties values
     end ∧
     match last_value factory_value argv with
     | Some text => json_loads text = Some (factory_properties options)
     | None => factory_properties options = factory_properties values
     end).
Proof.
  split; [apply parse_args_ok_iff|]. intros options args Hparse.
  split; [by eapply parse_args_largs|].
  split; [by eapply parse_args_TESTING|].
  split; [by eapply parse_args_bot_id|].
  by eapply parse_args_json.
Qed.

(** X2. On a command line whose items are all accepted, any positional
    argument makes [main] end in the usage error that lists the positional
    arguments in order; nothing is printed, resolved or run. *)
Theorem main_rejects_positional_arguments (argv : list cli_arg) (w : World) :
  Forall accepted argv →
  positionals argv ≠ [] →
  main argv w = ([], ParserError (UnusedArgs (positionals argv)), w).
Proof.
  intros Hacc Hpos.
  apply (proj1 (parse_args_ok_iff argv default_options [])) in Hacc
    as (options & args & Hparse).
  pose proof (parse_args_largs _ _ _ _ _ Hparse) as Hargs.
  cbn [app] in Hargs. subst args. unfold main. rewrite Hparse.
  by destruct (positionals argv).
Qed.

End ParsingProperties.

(** ** Where the bot id comes from *)

Lemma iterkeys_bot_table_nonempty `{P : Platform} :
  iterkeys_enumerates → iterkeys bot_table ≠ [].
Proof.
  intros Hkeys Hnil.
  assert (bool_decide (is_Some (bot_table !! "builder")) = true) as Hkey
    by (vm_compute; reflexivity).
  apply bool_decide_eq_true_1, Hkeys in Hkey. rewrite Hnil in Hkey.
  by apply not_elem_of_nil in Hkey.
Qed.

Section BotIdProperties.

Context {P : Platform}.

(** X3. With no usable [--bot-id] (absent or empty) and factory
    properties that are an object without a true [android_bot_id] entry,
    [main] ends in the usage error that asks for a bot id; nothing is
    printed, resolved or run. *)
Theorem main_without_bot_id (argv : list cli_arg) (w : World)
    (options : Options) (d : list (string * json number)) :
  parse_args argv default_options [] = inr (options, []) →
  opt_bot_id options = None ∨ opt_bot_id options = Some "" →
  factory_properties options = JDict d →
  (∀ v, dict_get d "android_bot_id" = Some v → truthy v = false) →
  main argv w = ([], ParserError NoBotId, w).
Proof.
  intros Hparse Hflag Hfactory Hentry. unfold main. rewrite Hparse.
  assert (select_bot_id options =
          inr (default JNull (dict_get d "android_bot_id"))) as ->.
  { unfold select_bot_id. rewrite Hfactory. by destruct Hflag as [-> | ->]. }
  assert (truthy (default JNull (dict_get d "android_bot_id")) = false) as ->;
    [|done].
  destruct (dict_get d "android_bot_id") as [v|]; [by apply Hentry | done].
Qed.

(** X4. With no usable [--bot-id] and factory properties that decode to
    something other than an object, the [.get] of [main] raises: the run
    ends with an uncaught [AttributeError], nothing printed or run. *)
Theorem main_factory_properties_not_an_object (argv : list cli_arg)
    (w : World) (options : Options) :
  parse_args argv default_options [] = inr (options, []) →
  opt_bot_id options = None ∨ opt_bot_id options = Some "" →
  (∀ d, factory_properties options ≠ JDict d) →
  main argv w = ([], Uncaught AttributeError, w).
Proof.
  intros Hparse Hflag Hfactory. unfold main. rewrite Hparse.
  assert (select_bot_id options = inl AttributeError) as ->; [|done].
  unfold select_bot_id.
  destruct (factory_properties options) as [|b|n|s|l|d] eqn:Hf;
    try (by destruct Hflag as [-> | ->]).
  by destruct (Hfactory d).
Qed.

(** X5. A bot id taken from the factory properties that is true but no
    string makes the lookup raise: the run ends with an uncaught
    [TypeError], nothing printed or run. *)
Theorem main_bot_id_not_a_string (argv : list cli_arg) (w : World)
    (options : Options) (v : json number) :
  iterkeys_enumerates →
  parse_args argv default_options [] = inr (options, []) →
  select_bot_id options = inr v →
  truthy v = true →
  (∀ s, v ≠ JStr s) →
  main argv w = ([], Uncaught TypeError, w).
Proof.
  intros Hkeys Hparse Hsel Htrue Hstr.
  pose proof (iterkeys_bot_table_nonempty Hkeys) as Hne.
  unfold main. rewrite Hparse, Hsel, Htrue, GetBotStepMap_runs. cbn [negb].
  destruct v as [|b|n|s|l|d]; try reflexivity.
  - destruct (iterkeys bot_table); [by destruct Hne | reflexivity].
  - destruct (iterkeys bot_table); [by destruct Hne | reflexivity].
  - destruct (iterkeys bot_table); [by destruct Hne | reflexivity].
  - by destruct (Hstr s).
Qed.

End BotIdProperties.

(** ** More on resolution *)

Lemma string_length_app (a b : string) :
  String.length (a +:+ b) = (String.length a + String.length b)%nat.
Proof. induction a as [|c a IH]; simpl; [done|]. by rewrite IH. Qed.

Lemma string_app_nil_r (a : string) : a +:+ "" = a.
Proof.
  induction a as [|c a IH]; [done|].
  change (String c (a +:+ "") = String c a). by rewrite IH.
Qed.

Lemma string_length_0 (a : string) : String.length a = 0%nat → a = "".
Proof. by destruct a. Qed.

(** What occurs in a string is no longer than it, and as long only if it
    is the string. *)
Lemma occurs_in_length (x s : string) :
  occurs_in x s →
  (String.length x ≤ String.length s)%nat ∧
  (String.length x = String.length s → x = s).
Proof.
  intros (pre & post & ->). rewrite !string_length_app. split; [lia|].
  intros Hlen.
  assert (pre = "") as -> by (apply string_length_0; lia).
  assert (post = "") as -> by (apply string_length_0; lia).
  change (x = x +:+ ""). symmetry. apply string_app_nil_r.
Qed.

Lemma max_by_len_longest_first (x : string) (l : list string) :
  (∀ y, y ∈ l → (String.length y ≤ String.length x)%nat) →
  max_by_len x l = x.
Proof.
  revert x. induction l as [|y l IH]; intros x Hle; simpl; [done|].
  destruct (Nat.ltb_spec (String.length x) (String.length y)) as [Hlt|_].
  - assert (String.length y ≤ String.length x)%nat
      by (apply Hle, elem_of_cons; by left).
    lia.
  - apply IH. intros z Hz. apply Hle. apply elem_of_cons. by right.
Qed.

Lemma max_by_len_first_longest (x k : string) (pre post : list string) :
  (String.length x < String.length k)%nat →
  (∀ y, y ∈ pre → (String.length y < String.length k)%nat) →
  (∀ y, y ∈ post → (String.length y ≤ String.length k)%nat) →
  max_by_len x (pre ++ k :: post) = k.
Proof.
  revert x. induction pre as [|y pre IH]; intros x Hx Hpre Hpost; simpl.
  - destruct (Nat.ltb_spec (String.length x) (String.length k)); [|lia].
    by apply max_by_len_longest_first.
  - assert (String.length y < String.length k)%nat
      by (apply Hpre, elem_of_cons; by left).
    assert (∀ z, z ∈ pre → (String.length z < String.length k)%nat)
      by (intros z Hz; apply Hpre, elem_of_cons; by right).
    destruct (_ <? _)%nat; by apply IH.
Qed.

Section ResolutionProperties.

Context {P : Platform}.

(** X6. When [bot_id] is no key and, among the keys that occur in it,
    one is strictly longer than all the others, resolution returns the
    configuration of that key and prints its name, in whatever order the
    keys are enumerated. *)
Theorem resolve_unique_longest (bot_map : gmap string (BotConfig loc))
    (bot_id k : string) (c : BotConfig loc) :
  iterkeys_enumerates →
  bot_map !! bot_id = None →
  bot_map !! k = Some c →
  occurs_in k bot_id →
  (∀ k', k' ≠ k → is_Some (bot_map !! k') → occurs_in k' bot_id →
         (String.length k' < String.length k)%nat) →
  resolve bot_map bot_id = ([substring_match_line k], inr (Some c)).
Proof.
  intros Hkeys Hnone Hk Hocc Hlonger. unfold resolve. rewrite Hnone.
  pose proof (λ k, substring_matches_spec bot_map bot_id k Hkeys) as Hspec.
  destruct (filter _ _) as [|x l].
  - assert (k ∈ @nil string) as Hin by (apply Hspec; eauto).
    by apply not_elem_of_nil in Hin.
  - assert (max_by_len x l = k) as ->; [|by rewrite Hk].
    destruct (decide (max_by_len x l = k)) as [|Hne]; [done|].
    pose proof (max_by_len_elem x l) as Hin. apply Hspec in Hin as [Hsome Ho].
    specialize (Hlonger _ Hne Hsome Ho).
    assert (String.length k ≤ String.length (max_by_len x l))%nat
      by (apply max_by_len_max, Hspec; eauto).
    lia.
Qed.

(** X7. Among keys of the greatest length that occur in [bot_id], the
    one enumerated first is taken: if the matching keys, in enumeration
    order, are [pre ++ k :: post] with those before [k] strictly shorter
    and those after no longer, resolution returns the configuration of
    [k]. *)
Theorem resolve_first_of_the_longest (bot_map : gmap string (BotConfig loc))
    (bot_id k : string) (pre post : list string) (c : BotConfig loc) :
  bot_map !! bot_id = None →
  filter (λ x, str_in x bot_id = true) (iterkeys bot_map) = pre ++ k :: post →
  (∀ y, y ∈ pre → (String.length y < String.length k)%nat) →
  (∀ y, y ∈ post → (String.length y ≤ String.length k)%nat) →
  bot_map !! k = Some c →
  resolve bot_map bot_id = ([substring_match_line k], inr (Some c)).
Proof.
  intros Hnone Hmatches Hpre Hpost Hk. unfold resolve.
  rewrite Hnone, Hmatches.
  destruct pre as [|x pre]; simpl.
  - rewrite (max_by_len_longest_first k post Hpost). by rewrite Hk.
  - rewrite (max_by_len_first_longest x k pre post).
    + by rewrite Hk.
    + apply Hpre, elem_of_cons. by left.
    + intros y Hy. apply Hpre, elem_of_cons. by right.
    + done.
Qed.

(** X8. When [bot_id] is no key, resolution never raises.  It finds
    nothing exactly when no key occurs in [bot_id]; what it finds is the
    configuration of a key that occurs in [bot_id], is strictly shorter
    than it, and is named in the one line printed. *)
Theorem resolve_substring_sound (bot_map : gmap string (BotConfig loc))
    (bot_id : string) :
  iterkeys_enumerates →
  bot_map !! bot_id = None →
  match resolve bot_map bot_id with
  | (out, inl e) => False
  | (out, inr None) =>
      out = [] ∧ ∀ k, is_Some (bot_map !! k) → ¬ occurs_in k bot_id
  | (out, inr (Some c)) =>
      ∃ k, bot_map !! k = Some c ∧ occurs_in k bot_id ∧
           (String.length k < String.length bot_id)%nat ∧
           out = [substring_match_line k]
  end.
Proof.
  intros Hkeys Hnone. unfold resolve. rewrite Hnone.
  pose proof (λ k, substring_matches_spec bot_map bot_id k Hkeys) as Hspec.
  destruct (filter _ _) as [|x l].
  - split; [done|]. intros k Hk Hocc.
    assert (k ∈ @nil string) as Hin by (apply Hspec; eauto).
    by apply not_elem_of_nil in Hin.
  - pose proof (max_by_len_elem x l) as Hin.
    apply Hspec in Hin as [[c Hc] Hocc]. rewrite Hc.
    exists (max_by_len x l). split; [done|]. split; [done|]. split; [|done].
    destruct (occurs_in_length _ _ Hocc) as [Hle Heq].
    destruct (decide (String.length (max_by_len x l) = String.length bot_id))
      as [Hlen|Hlen]; [|lia].
    apply Heq in Hlen. rewrite Hlen in Hc. congruence.
Qed.

End ResolutionProperties.

(** ** More on the loop *)

Section LoopProperties.

Context {P : Platform}.

(** X9. Running a list of commands made of two parts is running the
    first part and, unless a child of it failed, the second part in the
    world the first left: a failure in the first part returns at once,
    with nothing of the second part printed or started. *)
Theorem run_commands_app (testing : bool) (l1 l2 : list Command) (w : World) :
  run_commands testing (l1 ++ l2) w =
  let '(evs1, r1, w1) := run_commands testing l1 w in
  match r1 with
  | Some code => (evs1, Some code, w1)
  | None =>
      let '(evs2, r2, w2) := run_commands testing l2 w1 in
      (evs1 ++ evs2, r2, w2)
  end.
Proof.
  revert w. induction l1 as [|c l1 IH]; intros w.
  - cbn [app run_commands]. by destruct (run_commands testing l2 w) as [[??]?].
  - change ((c :: l1) ++ l2) with (c :: (l1 ++ l2)).
    rewrite !run_commands_cons.
    assert (∀ argv env,
      round_go testing c (l1 ++ l2) argv env w =
      let '(evs1, r1, w1) := round_go testing c l1 argv env w in
      match r1 with
      | Some code => (evs1, Some code, w1)
      | None =>
          let '(evs2, r2, w2) := run_commands testing l2 w1 in
          (evs1 ++ evs2, r2, w2)
      end) as Hgo.
    { intros argv env. unfold round_go.
      destruct (subprocess_call argv CHROME_SRC env w) as [return_code w1].
      destruct (decide (return_code ≠ 0%Z)); [done|]. rewrite IH.
      destruct (run_commands testing l1 w1) as [[evs1 [code|]] w1']; [done|].
      destruct (run_commands testing l2 w1') as [[evs2 r2] w2].
      by rewrite app_assoc. }
    assert (
      (let '(evs, r, w2) := run_commands testing (l1 ++ l2) w in
       (round_head c ++ evs, r, w2)) =
      let '(evs1, r1, w1) :=
        (let '(evs, r, w2) := run_commands testing l1 w in
         (round_head c ++ evs, r, w2)) in
      match r1 with
      | Some code => (evs1, Some code, w1)
      | None =>
          let '(evs2, r2, w2) := run_commands testing l2 w1 in
          (evs1 ++ evs2, r2, w2)
      end) as Hskip.
    { rewrite IH.
      destruct (run_commands testing l1 w) as [[evs1 [code|]] w1']; [done|].
      destruct (run_commands testing l2 w1') as [[evs2 r2] w2].
      by rewrite app_assoc. }
    destruct testing; [|apply Hgo].
    destruct (testing_cmd c) as [[|a l]|]; [apply Hskip | apply Hgo | apply Hskip].
Qed.

Lemma call_as_planned_cons (testing : bool) (c : Command)
    (rest : list Command) (evs : list event) :
  Forall (call_as_planned testing rest) evs →
  Forall (call_as_planned testing (c :: rest)) evs.
Proof.
  intros Hall. eapply Forall_impl; [exact Hall|].
  intros [line|name| |argv cwd env rc]; try done.
  intros (? & ? & c' & Hin & Hc'). split; [done|]. split; [done|].
  exists c'. split; [|done]. apply elem_of_cons. by right.
Qed.

Lemma call_as_planned_round_head (testing : bool) (cmds : list Command)
    (c : Command) :
  Forall (call_as_planned testing cmds) (round_head c).
Proof.
  unfold round_head. destruct (step_name c) as [[|a s]|]; by repeat constructor.
Qed.

(** X10. Every child the loop starts runs in [CHROME_SRC]; in normal
    mode it is the [command] of one of the commands, started with
    [env=None], the environment of the script with nothing put in, and
    in testing mode it is the [testing_cmd] of one of them, started with
    that environment and [BUILDBOT_TESTING='1'] put in.  Whether the
    environment of the script has the variable already is not the
    script's doing and is not said here. *)
Theorem run_commands_calls_as_planned (testing : bool)
    (command_objs : list Command) (w : World) :
  Forall (call_as_planned testing command_objs)
    (run_commands testing command_objs w).1.1.
Proof.
  revert w. induction command_objs as [|c rest IH]; intros w; [by constructor|].
  rewrite run_commands_cons.
  assert (∀ argv,
    (if testing then testing_cmd c = Some argv else command c = argv) →
    Forall (call_as_planned testing (c :: rest))
      (round_go testing c rest argv testing w).1.1) as Hgo.
  { intros argv Hargv. unfold round_go.
    destruct (subprocess_call argv CHROME_SRC testing w) as [return_code w1].
    assert (Forall (call_as_planned testing (c :: rest))
              (round_head c ++ [Call argv CHROME_SRC testing return_code]))
      as Hhead.
    { apply Forall_app. split; [apply call_as_planned_round_head|].
      constructor; [|by constructor]. split; [done|]. split; [done|].
      exists c. split; [|done]. apply elem_of_cons. by left. }
    destruct (decide (return_code ≠ 0%Z)); [done|].
    specialize (IH w1). destruct (run_commands testing rest w1) as [[evs r] w2].
    cbn [fst] in *. apply Forall_app. split; [done|].
    by apply call_as_planned_cons. }
  destruct testing; [|by apply Hgo].
  destruct (testing_cmd c) as [[|a l]|] eqn:Htest; [|by apply Hgo|].
  - specialize (IH w). destruct (run_commands true rest w) as [[evs r] w2].
    cbn [fst] in *. apply Forall_app.
    split; [apply call_as_planned_round_head | by apply call_as_planned_cons].
  - specialize (IH w). destruct (run_commands true rest w) as [[evs r] w2].
    cbn [fst] in *. apply Forall_app.
    split; [apply call_as_planned_round_head | by apply call_as_planned_cons].
Qed.

(** X11. When the mode and the commands call for no child (no command,
    or testing mode and no command with a testing form), the loop prints
    the marker and the line of each command, starts nothing, leaves the
    world as it was and returns nothing. *)
Theorem run_commands_nothing_to_start (testing : bool)
    (command_objs : list Command) (w : World) :
  invoked testing command_objs = [] →
  run_commands testing command_objs w =
    (concat (round_head <$> command_objs), None, w).
Proof.
  induction command_objs as [|c rest IH]; intros Hnone; [done|].
  rewrite run_commands_cons. rewrite invoked_cons in Hnone.
  destruct testing; [|done].
  destruct (testing_cmd c) as [[|a l]|]; [|done|];
    by rewrite (IH Hnone).
Qed.

End LoopProperties.

(** ** Copies in the store *)

Lemma deref_app_l (h ext : heap) (r : loc) :
  r < length h → deref (h ++ ext) r = deref h r.
Proof. intros Hr. unfold deref, heap, loc in *. by rewrite lookup_app_l. Qed.

Lemma deref_app_r (h ext : heap) (i : nat) :
  deref (h ++ ext) (length h + i) = default [] (ext !! i).
Proof.
  unfold deref, heap, loc in *. rewrite lookup_app_r by lia.
  do 2 f_equal. lia.
Qed.

Lemma deref_app_0 (h ext : heap) :
  deref (h ++ ext) (length h) = default [] (ext !! 0).
Proof. rewrite <- (Nat.add_0_r (length h)) at 1. apply deref_app_r. Qed.

Lemma config_value_app (h ext : heap) (c : BotConfig loc) :
  config_valid h c → config_value (h ++ ext) c = config_value h c.
Proof.
  destruct c as [id ho [[ts [ea|]]|] sp];
    unfold config_valid, locs_of, test_locs, config_value, test_value;
    cbn [host_opts test_obj tests extra_args bot_id slave_props fmap
         option_fmap option_map];
    intros Hv; repeat (apply Forall_cons in Hv as [? Hv]);
    by rewrite !deref_app_l.
Qed.

Lemma config_valid_app (h ext : heap) (c : BotConfig loc) :
  config_valid h c → config_valid (h ++ ext) c.
Proof.
  unfold config_valid. intros Hv. eapply Forall_impl; [exact Hv|].
  intros r Hr. cbn beta in *. rewrite length_app. lia.
Qed.

(** X12. [copy.deepcopy] of a configuration whose lists exist only
    extends the store, and returns a configuration of the same value whose
    lists are all among the cells added: no list of the copy is a list of
    the original, or of anything built before. *)
Theorem deepcopy_fresh_copy (c : BotConfig loc) (h : heap) :
  config_valid h c →
  ∃ c' ext,
    deepcopy c h = inr (c', h ++ ext) ∧
    config_value (h ++ ext) c' = config_value h c ∧
    Forall (λ r, length h ≤ r < length (h ++ ext)) (locs_of c').
Proof.
  destruct c as [id ho [[ts [ea|]]|] sp];
    unfold config_valid, locs_of, test_locs;
    cbn [host_opts test_obj tests extra_args]; intros Hv;
    repeat (apply Forall_cons in Hv as [? Hv]);
    unfold deepcopy, deepcopy_test, deepcopy_list, mbind, M_bind, mret, M_ret,
      read_list, new_list;
    cbn [host_opts test_obj tests extra_args memo_get bot_id slave_props];
    repeat (case_decide; cbn [memo_get]); subst;
    rewrite <- ?app_assoc; cbn [app];
    eexists _, _; (split; [reflexivity|]);
    rewrite ?length_app; cbn [length];
    unfold config_value, test_value;
    cbn [host_opts test_obj tests extra_args bot_id slave_props fmap
         option_fmap option_map];
    rewrite ?deref_app_0, ?deref_app_r; simpl;
    rewrite ?deref_app_l by assumption;
    (split; [reflexivity | repeat constructor; lia]).
Qed.

Lemma remove_first_notin (x : string) (l : list string) :
  x ∉ l → remove_first x l = l.
Proof.
  induction l as [|y l IH]; [done|]. intros Hx. simpl.
  rewrite not_elem_of_cons in Hx. destruct Hx as [Hne Hx].
  case_decide; [congruence|]. by rewrite IH.
Qed.

Lemma deepcopy_run (c : BotConfig loc) (h : heap) :
  config_valid h c → NoDup (locs_of c) →
  deepcopy c h = inr (relocate (length h) c, h ++ (deref h <$> locs_of c)).
Proof.
  destruct c as [id ho [[ts [ea|]]|] sp];
    unfold config_valid, locs_of, test_locs, relocate;
    cbn [host_opts test_obj tests extra_args fmap option_fmap option_map
         list_fmap bot_id slave_props];
    intros Hv Hnd;
    repeat (apply Forall_cons in Hv as [? Hv]);
    repeat (apply NoDup_cons in Hnd as [? Hnd]);
    repeat match goal with
           | H : _ ∉ _ :: _ |- _ => apply not_elem_of_cons in H as [? ?]
           end;
    unfold deepcopy, deepcopy_test, deepcopy_list, mbind, M_bind, mret, M_ret,
      read_list, new_list;
    cbn [host_opts test_obj tests extra_args memo_get bot_id slave_props];
    repeat (case_decide; try congruence; cbn [memo_get]);
    rewrite <- ?app_assoc; cbn [app];
    rewrite ?length_app; cbn [length];
    rewrite ?deref_app_l by assumption; reflexivity.
Qed.

Lemma NoDup_fresh (n : nat) : NoDup [n; n + 1; n + 2].
Proof.
  repeat (apply NoDup_cons; split); try apply NoDup_nil_2;
    intros Hin; repeat (apply elem_of_cons in Hin as [Hin|Hin]); try lia;
    by apply elem_of_nil in Hin.
Qed.

Lemma remove_first_unless (x : string) (l : list string) :
  bool_decide (l ≠ []) && bool_decide (x ∈ l) = false →
  remove_first x l = l.
Proof.
  intros Hcond. apply remove_first_notin. intros Hin.
  rewrite (bool_decide_eq_true_2 _ Hin), andb_true_r in Hcond.
  apply bool_decide_eq_false_1 in Hcond. apply Hcond. intros ->.
  by apply elem_of_nil in Hin.
Qed.

Lemma heap_insert_app_r (h ext : heap) (i : nat) (v : list string) :
  <[(length h + i)%nat : loc := v]> (h ++ ext) = h ++ <[i := v]> ext.
Proof. unfold heap, loc in *. apply insert_app_r. Qed.

Lemma copy_step_alias (bot_map : gmap string (BotConfig loc))
    (to_id from_id : string) (src : BotConfig loc) (h : heap) :
  bot_map !! to_id = None →
  bot_map !! from_id = Some src →
  config_valid h src →
  NoDup (locs_of src) →
  ∃ new ext,
    copy_step bot_map to_id from_id h = inr (<[to_id := new]> bot_map, h ++ ext) ∧
    config_value (h ++ ext) new = alias_value to_id (config_value h src) ∧
    Forall (λ r, length h ≤ r < length (h ++ ext)) (locs_of new) ∧
    NoDup (locs_of new).
Proof.
  intros Hto Hfrom Hv Hnd. unfold copy_step. rewrite Hto, Hfrom. clear Hto Hfrom.
  unfold mbind at 1. unfold M_bind at 1. rewrite (deepcopy_run _ _ Hv Hnd).
  assert (∀ n : nat, NoDup [n; n + 1]) as Hnd2.
  { intros n. pose proof (NoDup_fresh n) as Hn.
    apply NoDup_cons in Hn as [Hn1 Hn]. apply NoDup_cons in Hn as [_ Hn].
    apply NoDup_cons. split; [|by apply NoDup_singleton].
    intros Hin. apply Hn1. apply elem_of_cons in Hin as [Hin|Hin]; [lia|].
    by apply elem_of_nil in Hin. }
  destruct src as [bid ho [[ts [ea|]]|] sp];
    unfold config_valid, locs_of, test_locs in Hv, Hnd |- *;
    cbn [host_opts test_obj tests extra_args] in Hv, Hnd;
    repeat (apply Forall_cons in Hv as [? Hv]);
    cbn [relocate replace_bot_id host_opts test_obj tests extra_args bot_id
         slave_props fmap option_fmap option_map list_fmap];
    unfold alias_value, config_value, test_value;
    cbn [host_opts test_obj tests extra_args bot_id slave_props fmap
         option_fmap option_map].
  - destruct (String.prefix "try" to_id) eqn:Htry.
    + unfold mbind, M_bind, read_list, list_remove, write_list, mret, M_ret.
      rewrite !deref_app_r. simpl.
      destruct (_ && _) eqn:Hcond.
      * unfold mbind, M_bind, read_list.
        rewrite heap_insert_app_r, deref_app_r. simpl.
        eexists _, _. split; [reflexivity|].
        cbn [replace_bot_id relocate host_opts test_obj tests extra_args bot_id
             slave_props fmap option_fmap option_map].
        rewrite deref_app_0, !deref_app_r. simpl.
        split; [reflexivity|]. rewrite length_app. simpl.
        split; [repeat constructor; lia | apply NoDup_fresh].
      * eexists _, _. split; [reflexivity|].
        cbn [replace_bot_id relocate host_opts test_obj tests extra_args bot_id
             slave_props fmap option_fmap option_map].
        rewrite deref_app_0, !deref_app_r. simpl.
        rewrite (remove_first_unless _ _ Hcond).
        split; [reflexivity|]. rewrite length_app. simpl.
        split; [repeat constructor; lia | apply NoDup_fresh].
    + eexists _, _. split; [reflexivity|].
      cbn [replace_bot_id relocate host_opts test_obj tests extra_args bot_id
             slave_props fmap option_fmap option_map].
      rewrite deref_app_0, !deref_app_r. simpl.
      split; [reflexivity|]. rewrite length_app. simpl.
      split; [repeat constructor; lia | apply NoDup_fresh].
  - assert (∀ X Y : M (gmap string (BotConfig loc)),
              X = Y → (if String.prefix "try" to_id then X else Y) = X)
      as Hif by (intros X Y <-; by destruct (String.prefix "try" to_id)).
    rewrite Hif by reflexivity.
    eexists _, _. split; [reflexivity|].
    cbn [replace_bot_id relocate host_opts test_obj tests extra_args bot_id
             slave_props fmap option_fmap option_map].
    rewrite deref_app_0, !deref_app_r. simpl.
    split; [reflexivity|]. rewrite length_app. simpl.
    split; [repeat constructor; lia | apply Hnd2].
  - eexists _, _. split; [reflexivity|].
    cbn [replace_bot_id relocate host_opts test_obj tests extra_args bot_id
             slave_props fmap option_fmap option_map].
    rewrite deref_app_0. simpl.
    split; [reflexivity|]. rewrite length_app. simpl.
    split; [repeat constructor; lia|].
    apply NoDup_singleton.
Qed.

(** X13. One round of the alias loop, for a new id that is free and a
    source whose lists exist and are different objects: the store is only
    extended, so every configuration built before keeps its value, the
    source included; the alias has the value of the source under the new
    id, less the first dashboard flag of the extra arguments when the new
    id starts with "try"; its lists are new cells, each a different
    object. *)
Theorem copy_step_makes_alias (bot_map : gmap string (BotConfig loc))
    (to_id from_id : string) (src : BotConfig loc) (h : heap) :
  bot_map !! to_id = None →
  bot_map !! from_id = Some src →
  config_valid h src →
  NoDup (locs_of src) →
  ∃ new ext,
    copy_step bot_map to_id from_id h =
      inr (<[to_id := new]> bot_map, h ++ ext) ∧
    (∀ c, config_valid h c → config_value (h ++ ext) c = config_value h c) ∧
    config_value (h ++ ext) new = alias_value to_id (config_value h src) ∧
    Forall (λ r, length h ≤ r < length (h ++ ext)) (locs_of new) ∧
    NoDup (locs_of new).
Proof.
  intros Hto Hfrom Hv Hnd.
  destruct (copy_step_alias bot_map to_id from_id src h Hto Hfrom Hv Hnd)
    as (new & ext & Hstep & Hval & Hfresh & Hnew).
  exists new, ext. split; [done|]. split; [|done].
  intros c Hc. by apply config_value_app.
Qed.

Lemma dict_of_pairs_elem {V} (l : list (string * V)) (k : string) (v : V) :
  dict_of_pairs l !! k = Some v → (k, v) ∈ l.
Proof.
  induction l as [|[k' v'] l IH] using rev_ind; [done|].
  rewrite dict_of_pairs_snoc, lookup_insert, elem_of_app.
  case_decide as Hk.
  - intros [= <-]. subst k'. right. apply elem_of_cons. by left.
  - intros Hl. left. by apply IH.
Qed.

Lemma copy_loop_aliases (copy_map : list (string * string))
    (m : gmap string (BotConfig loc)) (h : heap)
    (m' : gmap string (BotConfig loc)) (h' : heap) :
  table_ok h m →
  copy_loop m copy_map h = inr (m', h') →
  ∃ ext,
    h' = h ++ ext ∧ table_ok h' m' ∧
    (∀ k c, m !! k = Some c → m' !! k = Some c) ∧
    (∀ to_id from_id,
       (to_id, from_id) ∈ copy_map →
       ∃ new src,
         m' !! to_id = Some new ∧ m' !! from_id = Some src ∧
         config_value h' new = alias_value to_id (config_value h' src)).
Proof.
  revert m h.
  induction copy_map as [|[to_id from_id] rest IH]; intros m h Hok Hrun.
  - injection Hrun as <- <-. exists []. rewrite app_nil_r.
    split; [done|]. split; [done|]. split; [done|].
    intros ? ? Hin. by apply elem_of_nil in Hin.
  - cbn [copy_loop] in Hrun. unfold mbind, M_bind in Hrun.
    destruct (m !! to_id) as [old|] eqn:Hto.
    { unfold copy_step in Hrun. by rewrite Hto in Hrun. }
    destruct (m !! from_id) as [src|] eqn:Hfrom.
    2:{ unfold copy_step in Hrun. by rewrite Hto, Hfrom in Hrun. }
    destruct (Hok _ _ Hfrom) as [Hv Hnd].
    destruct (copy_step_alias m to_id from_id src h Hto Hfrom Hv Hnd)
      as (new & ext1 & Hstep & Hval & Hfresh & Hnew).
    rewrite Hstep in Hrun.
    assert (config_valid (h ++ ext1) new) as Hvnew.
    { unfold config_valid. eapply Forall_impl; [exact Hfresh|].
      intros r Hr. cbn beta in Hr. lia. }
    assert (table_ok (h ++ ext1) (<[to_id := new]> m)) as Hok1.
    { intros k c. rewrite lookup_insert. case_decide.
      - by intros [= <-].
      - intros Hc. destruct (Hok _ _ Hc). split; [|done].
        by apply config_valid_app. }
    destruct (IH _ _ Hok1 Hrun) as (ext2 & -> & Hok' & Hkeep & Halias).
    exists (ext1 ++ ext2). rewrite app_assoc.
    split; [done|]. split; [done|]. split.
    + intros k c Hc. apply Hkeep. rewrite lookup_insert_ne; [done|].
      intros <-. congruence.
    + intros to_id' from_id' Hin. apply elem_of_cons in Hin as [[= -> ->]|Hin].
      * exists new, src. split; [apply Hkeep; by rewrite lookup_insert_eq|].
        split.
        { apply Hkeep. rewrite lookup_insert_ne; [done|]. intros <-. congruence. }
        rewrite (config_value_app _ ext2 new Hvnew), Hval.
        rewrite <- app_assoc. by rewrite (config_value_app h _ src Hv).
      * by apply Halias.
Qed.

(** X14. When [build_bot_map] succeeds on primary entries whose lists
    exist in the store and of which none uses one list object twice (its
    host options, tests and extra arguments are different objects;
    different entries may share lists, as the script's do), the store is
    only extended; every primary id is still bound to its configuration,
    with the value it had; and every alias has the value of its source
    under its own id, less the first dashboard flag of the extra
    arguments for a try bot. *)
Theorem build_bot_map_aliases (bot_configs : list (BotConfig loc))
    (copy_map : list (string * string)) (h : heap)
    (m' : gmap string (BotConfig loc)) (h' : heap) :
  Forall (λ c, config_valid h c ∧ NoDup (locs_of c)) bot_configs →
  build_bot_map bot_configs copy_map h = inr (m', h') →
  ∃ ext,
    h' = h ++ ext ∧
    (∀ k c,
       dict_of_pairs ((λ config, (bot_id config, config)) <$> bot_configs) !! k
         = Some c →
       m' !! k = Some c ∧ config_value h' c = config_value h c) ∧
    (∀ to_id from_id,
       (to_id, from_id) ∈ copy_map →
       ∃ new src,
         m' !! to_id = Some new ∧ m' !! from_id = Some src ∧
         config_value h' new = alias_value to_id (config_value h' src)).
Proof.
  intros Hall Hrun. unfold build_bot_map in Hrun.
  assert (table_ok h
            (dict_of_pairs ((λ config, (bot_id config, config)) <$> bot_configs)))
    as Hok.
  { intros k c Hc. apply dict_of_pairs_elem, list_elem_of_fmap in Hc
      as (c' & [= _ ->] & Hin).
    by apply (proj1 (Forall_forall _ _) Hall). }
  destruct (copy_loop_aliases _ _ _ _ _ Hok Hrun)
    as (ext & -> & _ & Hkeep & Halias).
  exists ext. split; [done|]. split; [|done].
  intros k c Hc. split; [by apply Hkeep|].
  apply config_value_app. by destruct (Hok _ _ Hc).
Qed.

(** ** Removing from a list *)

(** X15. [l.remove(x)] as the alias loop uses it drops one occurrence of
    [x] and keeps everything else: a list without [x] is unchanged, and a
    list with [x] is, up to order, [x] and what is left.  So the flag is
    gone from extra arguments that held it once, and stays if they held it
    twice. *)
Theorem remove_first_drops_one (x : string) (l : list string) :
  (x ∉ l → remove_first x l = l) ∧
  (x ∈ l → l ≡ₚ x :: remove_first x l) ∧
  (NoDup l → x ∉ remove_first x l) ∧
  (∀ l1 l2, x ∉ l1 → remove_first x (l1 ++ x :: l2) = l1 ++ l2).
Proof.
  split; [apply remove_first_notin|]. split; [|split].
  - induction l as [|y l IH]; intros Hin; [by apply elem_of_nil in Hin|].
    simpl. case_decide as Hy; [by subst|].
    apply elem_of_cons in Hin as [->|Hin]; [done|].
    rewrite (IH Hin) at 1. apply Permutation_swap.
  - induction l as [|y l IH]; intros Hnd; simpl; [apply not_elem_of_nil|].
    apply NoDup_cons in Hnd as [Hy Hnd]. case_decide as Hyx; [by subst|].
    apply not_elem_of_cons. split; [congruence | by apply IH].
  - intros l1 l2 Hx. induction l1 as [|y l1 IH]; simpl.
    + by case_decide.
    + apply not_elem_of_cons in Hx as [Hne Hx].
      case_decide; [congruence|]. by rewrite IH.
Qed.

(** ** The merged slave properties *)

Lemma props_get_set (k v : string) (d : props) (k' : string) :
  props_get (props_set k v d) k' =
  if decide (k = k') then Some v else props_get d k'.
Proof.
  induction d as [|[k0 v0] d IH]; simpl.
  - by case_decide.
  - destruct (decide (k0 = k)) as [->|Hk0]; simpl.
    + by repeat case_decide.
    + rewrite IH. repeat case_decide; congruence.
Qed.

Lemma props_set_keys (k v : string) (d : props) (k' : string) :
  k' ∈ (props_set k v d).*1 ↔ k' = k ∨ k' ∈ d.*1.
Proof.
  induction d as [|[k0 v0] d IH]; simpl.
  - rewrite list_elem_of_singleton, elem_of_nil. tauto.
  - destruct (decide (k0 = k)) as [->|Hk0]; simpl.
    + rewrite !elem_of_cons. tauto.
    + rewrite !elem_of_cons, IH. tauto.
Qed.

Lemma props_set_NoDup (k v : string) (d : props) :
  NoDup d.*1 → NoDup (props_set k v d).*1.
Proof.
  induction d as [|[k0 v0] d IH]; simpl; intros Hnd.
  - apply NoDup_singleton.
  - apply NoDup_cons in Hnd as [Hk0 Hnd].
    destruct (decide (k0 = k)) as [->|Hne]; simpl.
    + by apply NoDup_cons.
    + apply NoDup_cons. split; [|by apply IH].
      rewrite props_set_keys. intros [?|?]; [congruence|done].
Qed.

Lemma props_update_snoc (d e : props) (k v : string) :
  props_update d (e ++ [(k, v)]) = props_set k v (props_update d e).
Proof. unfold props_update. by rewrite foldl_app. Qed.

Lemma props_get_update (d e : props) (k : string) :
  props_get (props_update d e) k =
  match props_get (reverse e) k with
  | Some v => Some v
  | None => props_get d k
  end.
Proof.
  revert k. induction e as [|[k0 v0] e IH] using rev_ind; intros k; [done|].
  rewrite props_update_snoc, props_get_set, reverse_app. simpl.
  case_decide; [done|]. apply IH.
Qed.

Lemma props_update_NoDup (d e : props) :
  NoDup d.*1 → NoDup (props_update d e).*1.
Proof.
  intros Hnd. induction e as [|[k0 v0] e IH] using rev_ind; [done|].
  rewrite props_update_snoc. by apply props_set_NoDup.
Qed.

(** X16. [d.update(e)] on the property dicts: a key bound in [e] gets
    the value of its last binding there, any other key keeps the value it
    had in [d], and no key comes to be listed twice.  With the empty global
    properties of the script, the merged properties of a bot are its own. *)
Theorem props_update_overrides (d e : props) :
  (∀ k, props_get (props_update d e) k =
        match props_get (reverse e) k with
        | Some v => Some v
        | None => props_get d k
        end) ∧
  (NoDup d.*1 → NoDup (props_update d e).*1) ∧
  (∀ c : BotConfig loc,
     slave_props c = Some e →
     ∀ k, props_get (merged_slave_props c) k = props_get (reverse e) k).
Proof.
  split; [apply props_get_update|]. split; [apply props_update_NoDup|].
  intros c Hc k. unfold merged_slave_props. rewrite Hc.
  destruct e as [|kv e']; [done|].
  rewrite props_get_update. unfold GLOBAL_SLAVE_PROPS.
  by destruct (props_get (reverse (kv :: e')) k).
Qed.

(** * The further properties at work *)

Lemma wide_iterkeys_enumerates : iterkeys_enumerates (P := wide_platform).
Proof.
  intros m k. cbn [iterkeys wide_platform]. rewrite list_elem_of_fmap. split.
  - intros ([k' c] & -> & Hin). apply elem_of_map_to_list in Hin. by exists c.
  - intros [c Hc]. exists (k, c). split; [done|]. by apply elem_of_map_to_list.
Qed.

Lemma parse_args_accepts_witness :
  let argv := [Opt_TESTING; Positional "x"; Opt_bot_id "a";
               Opt_factory_properties factory_text; Positional "y"] in
  let options :=
    mkOptions (P := sample_platform) (JDict [])
      (JDict [("android_bot_id", JStr "main-tests")]) (Some "a") true in
  ["x"; "y"] = [] ++ positionals argv ∧
  (TESTING options = true ↔
   TESTING (default_options (P := sample_platform)) = true ∨
   Opt_TESTING ∈ argv) ∧
  opt_bot_id options =
    last_bot_id argv (opt_bot_id (default_options (P := sample_platform))) ∧
  match last_value build_value argv with
  | Some text => json_loads text = Some (build_properties options)
  | None =>
      build_properties options =
      build_properties (default_options (P := sample_platform))
  end ∧
  match last_value factory_value argv with
  | Some text => json_loads text = Some (factory_properties options)
  | None =>
      factory_properties options =
      factory_properties (default_options (P := sample_platform))
  end.
Proof.
  intros argv options.
  apply (proj2 (parse_args_accepts (P := sample_platform) argv
                  default_options []) options ["x"; "y"]).
  reflexivity.
Defined.

Lemma main_rejects_positional_arguments_witness :
  main (P := sample_platform) [Opt_bot_id "main-tests"; Positional "extra"] [] =
  ([], ParserError (UnusedArgs ["extra"]), []).
Proof.
  apply (main_rejects_positional_arguments (P := sample_platform)
           [Opt_bot_id "main-tests"; Positional "extra"] []).
  - repeat constructor.
  - discriminate.
Defined.

Lemma main_without_bot_id_witness :
  main (P := sample_platform) [Opt_TESTING] [] = ([], ParserError NoBotId, []).
Proof.
  apply (main_without_bot_id (P := sample_platform) [Opt_TESTING] []
           (mkOptions (JDict []) (JDict []) None true) []).
  - reflexivity.
  - by left.
  - reflexivity.
  - intros v Hv. discriminate Hv.
Defined.

Lemma main_factory_properties_not_an_object_witness :
  main (P := wide_platform) [Opt_factory_properties "[]"] [] =
  ([], Uncaught AttributeError, []).
Proof.
  apply (main_factory_properties_not_an_object (P := wide_platform)
           [Opt_factory_properties "[]"] []
           (mkOptions (P := wide_platform) (JDict []) (JList []) None false)).
  - reflexivity.
  - by left.
  - intros d. discriminate.
Defined.

Lemma main_bot_id_not_a_string_witness :
  main (P := wide_platform) [Opt_factory_properties numeric_factory_text] [] =
  ([], Uncaught TypeError, []).
Proof.
  apply (main_bot_id_not_a_string (P := wide_platform)
           [Opt_factory_properties numeric_factory_text] []
           (mkOptions (P := wide_platform) (JDict [])
              (JDict [("android_bot_id", JNum 5%Z)]) None false)
           (JNum 5%Z)).
  - exact wide_iterkeys_enumerates.
  - reflexivity.
  - reflexivity.
  - reflexivity.
  - intros s. discriminate.
Defined.

Lemma nested_map_keys (k : string) :
  is_Some (nested_map !! k) → k = "fyi-builder" ∨ k = "builder".
Proof.
  unfold nested_map. intros [c Hc]. rewrite lookup_insert in Hc.
  case_decide; [by left|]. rewrite lookup_insert in Hc.
  case_decide; [by right|]. by rewrite lookup_empty in Hc.
Qed.

Lemma resolve_unique_longest_witness :
  resolve (P := sample_platform) nested_map "x-fyi-builder-y" =
  ([substring_match_line "fyi-builder"],
   inr (Some (B_ "fyi-builder" 1 None None))).
Proof.
  apply (resolve_unique_longest (P := sample_platform) nested_map
           "x-fyi-builder-y" "fyi-builder").
  - exact sample_iterkeys_enumerates.
  - vm_compute. reflexivity.
  - vm_compute. reflexivity.
  - exists "x-", "-y". reflexivity.
  - intros k' Hne Hk' _. apply nested_map_keys in Hk' as [->| ->]; [done|].
    simpl. lia.
Defined.

Lemma resolve_first_of_the_longest_witness :
  resolve (P := sample_platform) tie_map "try-tests-fyi-tests" =
  ([substring_match_line "fyi-tests"],
   inr (Some (B_ "fyi-tests" 1 None None))).
Proof.
  apply (resolve_first_of_the_longest (P := sample_platform) tie_map
           "try-tests-fyi-tests" "fyi-tests" [] ["try-tests"]).
  - vm_compute. reflexivity.
  - vm_compute. reflexivity.
  - intros y Hy. by apply elem_of_nil in Hy.
  - intros y Hy. apply list_elem_of_singleton in Hy as ->. simpl. lia.
  - vm_compute. reflexivity.
Defined.

Lemma resolve_substring_sound_witness :
  match resolve (P := sample_platform) nested_map "x-fyi-builder-y" with
  | (out, inl e) => False
  | (out, inr None) =>
      out = [] ∧
      ∀ k, is_Some (nested_map !! k) → ¬ occurs_in k "x-fyi-builder-y"
  | (out, inr (Some c)) =>
      ∃ k, nested_map !! k = Some c ∧ occurs_in k "x-fyi-builder-y" ∧
           (String.length k < String.length "x-fyi-builder-y")%nat ∧
           out = [substring_match_line k]
  end.
Proof.
  apply (resolve_substring_sound (P := sample_platform) nested_map
           "x-fyi-builder-y").
  - exact sample_iterkeys_enumerates.
  - vm_compute. reflexivity.
Defined.

Lemma run_commands_nothing_to_start_witness :
  let c := mkCommand (Some "Host steps") ["bash"; "-exc"; "one"] None in
  run_commands (P := sample_platform) true [c] [7%Z] =
  (concat (round_head (P := sample_platform) <$> [c]), None, [7%Z]).
Proof.
  intros c.
  apply (run_commands_nothing_to_start (P := sample_platform) true [c] [7%Z]).
  reflexivity.
Defined.

Lemma deepcopy_fresh_copy_witness :
  let c : BotConfig loc := B_ "a" 0 (Some (T_ 0 (Some 1))) None in
  let h : heap := [["--compile"]; ["--asan"]] in
  ∃ c' ext,
    deepcopy c h = inr (c', h ++ ext) ∧
    config_value (h ++ ext) c' = config_value h c ∧
    Forall (λ r, length h ≤ r < length (h ++ ext)) (locs_of c').
Proof.
  intros c h. apply (deepcopy_fresh_copy c h).
  repeat constructor.
Defined.

Lemma copy_step_makes_alias_witness :
  let src : BotConfig loc := B_ "main-tests" 0 (Some (T_ 1 (Some 2))) None in
  let bot_map : gmap string (BotConfig loc) := {["main-tests" := src]} in
  let h : heap := [["--extract-build"]; ["ui"; "unit"]; [flakiness_server]] in
  ∃ new ext,
    copy_step bot_map "try-tests" "main-tests" h =
      inr (<["try-tests" := new]> bot_map, h ++ ext) ∧
    (∀ c, config_valid h c → config_value (h ++ ext) c = config_value h c) ∧
    config_value (h ++ ext) new =
      alias_value "try-tests" (config_value h src) ∧
    Forall (λ r, length h ≤ r < length (h ++ ext)) (locs_of new) ∧
    NoDup (locs_of new).
Proof.
  intros src bot_map h.
  apply (copy_step_makes_alias bot_map "try-tests" "main-tests" src h).
  - vm_compute. reflexivity.
  - vm_compute. reflexivity.
  - repeat constructor.
  - apply (NoDup_fresh 0).
Defined.

Lemma bot_configs_runs : bot_configs [] = inr (declared_configs, declared_heap).
Proof.
  assert (match bot_configs [] with inr _ => true | inl _ => false end = true)
    as Hruns by (vm_compute; reflexivity).
  unfold declared_configs, declared_heap.
  destruct (bot_configs []) as [e|[l h]]; [discriminate | reflexivity].
Qed.

Lemma GetBotStepMap_builds :
  build_bot_map declared_configs copy_map declared_heap =
  inr (bot_table, bot_heap).
Proof.
  rewrite <- GetBotStepMap_runs. unfold GetBotStepMap, mbind, M_bind.
  by rewrite bot_configs_runs.
Qed.

Lemma declared_configs_ok :
  Forall (λ c, config_valid declared_heap c ∧ NoDup (locs_of c))
    declared_configs.
Proof.
  assert (forallb (λ c, bool_decide (Forall (λ r, r < length declared_heap)
                                      (locs_of c)) &&
                        bool_decide (NoDup (locs_of c)))
            declared_configs = true) as Hall by (vm_compute; reflexivity).
  apply Forall_forall. intros c Hc. apply list_elem_of_In in Hc.
  apply (proj1 (forallb_forall _ _) Hall) in Hc.
  apply andb_true_iff in Hc as [Hv Hnd].
  split; [exact (bool_decide_eq_true_1 _ Hv) | exact (bool_decide_eq_true_1 _ Hnd)].
Qed.

Lemma build_bot_map_aliases_witness :
  ∃ ext,
    bot_heap = declared_heap ++ ext ∧
    (∀ k c,
       declared_map !! k = Some c →
       bot_table !! k = Some c ∧
       config_value bot_heap c = config_value declared_heap c) ∧
    (∀ to_id from_id,
       (to_id, from_id) ∈ copy_map →
       ∃ new src,
         bot_table !! to_id = Some new ∧ bot_table !! from_id = Some src ∧
         config_value bot_heap new =
           alias_value to_id (config_value bot_heap src)).
Proof.
  apply (build_bot_map_aliases declared_configs copy_map declared_heap
           bot_table bot_heap).
  - exact declared_configs_ok.
  - exact GetBotStepMap_builds.
Defined.

Lemma remove_first_drops_one_witness :
  flakiness_server ∉
    remove_first flakiness_server ["--experimental"; flakiness_server].
Proof.
  apply (proj1 (proj2 (proj2 (remove_first_drops_one flakiness_server
                                ["--experimental"; flakiness_server])))).
  apply NoDup_cons. split; [|apply NoDup_singleton].
  intros Hin. apply list_elem_of_singleton in Hin. discriminate Hin.
Defined.

Lemma props_update_overrides_witness :
  NoDup (props_update [(extra_gyp, "clang=1")] [(extra_gyp, "asan=1")]).*1.
Proof.
  apply (proj1 (proj2 (props_update_overrides [(extra_gyp, "clang=1")]
                         [(extra_gyp, "asan=1")]))).
  apply NoDup_singleton.
Defined.
